(** * extract.py: PDF text -> chunks -> model completions -> PAN records -> CSV

    A shallow embedding of [src/extract.py] and the properties its
    specification states about it.  Python [str] values are lists of
    8-bit characters, Python [int] values are [Z], a function that can
    raise returns an [outcome], and the provider (the model catalog, the
    generation call), the clock ([time.sleep]) and the console ([print])
    are threaded through an explicit world state. *)

From Stdlib Require Import List Ascii String ZArith Lia Bool Arith.
From Stdlib Require Import Floats.SpecFloat.
Import ListNotations.

Set Implicit Arguments.
Set Warnings "-register-all".

(** ** Python strings *)

Module PyStr.

Definition str := list ascii.

(** A literal of the source. *)
Definition lit (s : string) : str := list_ascii_of_string s.

(** The line break ['\n']. *)
Definition LF : ascii := ascii_of_nat 10.

(** [len(s)] *)
Definition len (s : str) : Z := Z.of_nat (List.length s).

(** Truth value of a string: [if s:] holds for the non-empty ones. *)
Definition nonempty (s : str) : bool :=
  match s with [] => false | _ :: _ => true end.

Definition eqb (a b : str) : bool :=
  if list_eq_dec ascii_dec a b then true else false.

(** [c.isspace()] on the code points below 256: TAB..CR, FS..US, SPACE,
    NEL and NBSP.  [str.strip] and the [\s] class of [re] use it. *)
Definition isspace (c : ascii) : bool :=
  let n := nat_of_ascii c in
  ((9 <=? n) && (n <=? 13)) || ((28 <=? n) && (n <=? 32))
  || (n =? 133) || (n =? 160).

(** [c.lower()] on the code points below 256: the ASCII capitals and
    the Latin-1 capitals (192..222 without the multiplication sign). *)
Definition lower_char (c : ascii) : ascii :=
  let n := nat_of_ascii c in
  if ((65 <=? n) && (n <=? 90))
     || ((192 <=? n) && (n <=? 222) && negb (n =? 215))
  then ascii_of_nat (n + 32) else c.

(** [s.lower()] *)
Definition lower (s : str) : str := map lower_char s.

(** [s.startswith(p)] *)
Fixpoint startswith (p s : str) : bool :=
  match p, s with
  | [], _ => true
  | _ :: _, [] => false
  | a :: p', b :: s' => Ascii.eqb a b && startswith p' s'
  end.

(** [p in s] for strings: [p] occurs in [s] as a substring. *)
Fixpoint contains (p s : str) : bool :=
  startswith p s ||
  match s with
  | [] => false
  | _ :: s' => contains p s'
  end.

Fixpoint lstrip (s : str) : str :=
  match s with
  | c :: s' => if isspace c then lstrip s' else s
  | [] => []
  end.

Definition rstrip (s : str) : str := rev (lstrip (rev s)).

(** [s.strip()] *)
Definition strip (s : str) : str := rstrip (lstrip s).

(** [s] is made of whitespace only. *)
Definition blank (s : str) : bool := forallb isspace s.

(** [s] neither starts nor ends with whitespace. *)
Definition trimmed (s : str) : Prop :=
  match s with [] => True | c :: _ => isspace c = false end
  /\ match rev s with [] => True | c :: _ => isspace c = false end.

(** [s.split(sep)] for a non-empty [sep]: the text is scanned from the
    left; where [sep] occurs outside a previous occurrence the piece read
    so far ([cur], reversed) is cut off and the [length sep] characters of
    the occurrence are skipped ([skip] counts those still to skip). *)
Fixpoint split_go (sep s : str) (skip : nat) (cur : str) : list str :=
  match s with
  | [] => [rev cur]
  | c :: s' =>
      match skip with
      | S k => split_go sep s' k cur
      | O =>
          if startswith sep s
          then rev cur :: split_go sep s' (List.length sep - 1) []
          else split_go sep s' 0 (c :: cur)
      end
  end.

Definition split (sep s : str) : list str := split_go sep s 0 [].

(** [sep.join(parts)] *)
Fixpoint join (sep : str) (parts : list str) : str :=
  match parts with
  | [] => []
  | [p] => p
  | p :: ps => p ++ sep ++ join sep ps
  end.

(** [s.replace(old, new)] for a non-empty [old]: every occurrence of
    [old] found by a left-to-right scan that resumes after the previous
    occurrence is replaced. *)
Fixpoint replace_go (old new s : str) (skip : nat) : str :=
  match s with
  | [] => []
  | c :: s' =>
      match skip with
      | S k => replace_go old new s' k
      | O =>
          if startswith old s
          then new ++ replace_go old new s' (List.length old - 1)
          else c :: replace_go old new s' 0
      end
  end.

Definition replace (old new s : str) : str := replace_go old new s 0.

End PyStr.

Import PyStr.

(** ** Chunker *)

Module Chunker.

(** The paragraph separator ['\n\n']. *)
Definition para_sep : str := [LF; LF].

(** The body of [for section in sections], on the two variables it
    updates. *)
Fixpoint chunk_loop (max_chars : Z) (sections : list str)
  (chunks : list str) (current_chunk : str) : list str * str :=
  match sections with
  | [] => (chunks, current_chunk)
  | sec :: rest =>
      if (len current_chunk + len sec <? max_chars)%Z
      then chunk_loop max_chars rest chunks (current_chunk ++ sec ++ para_sep)
      else
        chunk_loop max_chars rest
          (if nonempty current_chunk then chunks ++ [current_chunk] else chunks)
          (sec ++ para_sep)
  end.

(** [chunk_text(text, max_chars)] *)
Definition chunk_text (text : str) (max_chars : Z) : list str :=
  let '(chunks, current_chunk) :=
    chunk_loop max_chars (split para_sep text) [] [] in
  if nonempty current_chunk then chunks ++ [current_chunk] else chunks.

(** Every section with the separator put back after it: what the chunks
    spell, as the proofs below state it. *)
Definition terminated (sections : list str) : str :=
  List.concat (map (fun sec => sec ++ para_sep) sections).

(** The default of [max_chars]. *)
Definition default_max_chars : Z := 120000.

End Chunker.

(** ** Exceptions and results *)

(** The exceptions the program tells apart: [json.JSONDecodeError], and
    any other subclass of [Exception], of which only [str(e)] is read. *)
Inductive exn :=
| JSONDecodeError (msg : str)
| Exception (msg : str).

(** [str(e)] *)
Definition exn_msg (e : exn) : str :=
  match e with JSONDecodeError m => m | Exception m => m end.

(** What evaluating a Python expression gives: a value or a raised
    exception. *)
Inductive outcome (A : Type) :=
| Return (a : A)
| Raise (e : exn).

Arguments Return {A} a.
Arguments Raise {A} e.

(** ** The fragment of [re] the program uses *)

Module Regex.

(** Patterns.  A repetition is over a one-character class, which is all
    the pattern of the source needs and keeps the matcher structural. *)
Inductive regex :=
| Eps
| Chr (c : ascii)
| Cat (r1 r2 : regex)
| Opt (r : regex)
| Star (p : ascii -> bool)
| StarLazy (p : ascii -> bool)
| Group (r : regex).

(** A literal string as a pattern. *)
Fixpoint lits (s : str) : regex :=
  match s with
  | [] => Eps
  | c :: s' => Cat (Chr c) (lits s')
  end.

(** [p*]: the longest run first, then shorter ones (backtracking). *)
Fixpoint star_greedy {R} (p : ascii -> bool) (s : str)
  (k : str -> option R) : option R :=
  match s with
  | c :: s' =>
      if p c
      then match star_greedy p s' k with
           | Some r => Some r
           | None => k s
           end
      else k s
  | [] => k []
  end.

(** [p*?]: the shortest run first, then longer ones. *)
Fixpoint star_lazy {R} (p : ascii -> bool) (s : str)
  (k : str -> option R) : option R :=
  match k s with
  | Some r => Some r
  | None =>
      match s with
      | c :: s' => if p c then star_lazy p s' k else None
      | [] => None
      end
  end.

(** The backtracking matcher, in continuation-passing style: [rmatch r s
    g k] matches [r] at the start of [s] and hands the rest of the input
    and the text of group 1 to [k]; when [k] fails the next alternative of
    [r] is tried, in the order of Python's engine.  The result is the text
    of group 1 of the first complete match. *)
Fixpoint rmatch (r : regex) (s : str) (g : option str)
  (k : str -> option str -> option (option str)) : option (option str) :=
  match r with
  | Eps => k s g
  | Chr c =>
      match s with
      | c' :: s' => if Ascii.eqb c c' then k s' g else None
      | [] => None
      end
  | Cat r1 r2 => rmatch r1 s g (fun s1 g1 => rmatch r2 s1 g1 k)
  | Opt r1 =>
      match rmatch r1 s g k with
      | Some m => Some m
      | None => k s g
      end
  | Star p => star_greedy p s (fun s' => k s' g)
  | StarLazy p => star_lazy p s (fun s' => k s' g)
  | Group r1 =>
      rmatch r1 s g
        (fun s' _ => k s' (Some (firstn (List.length s - List.length s') s)))
  end.

(** [re.match]: a match at the start of [s]; there is no anchor at the
    end. *)
Definition match_here (r : regex) (s : str) : option (option str) :=
  rmatch r s None (fun _ g => Some g).

(** [re.search(r, s)]: the leftmost position with a match.  [Some g] is a
    match object whose [group(1)] is [g]. *)
Fixpoint search (r : regex) (s : str) : option (option str) :=
  match match_here r s with
  | Some g => Some g
  | None =>
      match s with
      | _ :: s' => search r s'
      | [] => None
      end
  end.

End Regex.

(** ** Values of [json.loads] *)

Module Json.

(** Python values a JSON text decodes to.  A [dict] keeps its keys in
    insertion order and holds each key once. *)
Inductive json :=
| JNone
| JBool (b : bool)
| JInt (z : Z)
| JFloat (f : spec_float)
| JStr (s : str)
| JList (l : list json)
| JDict (d : list (str * json)).

(** Truth value of a Python value ([if v:]). *)
Definition truthy (v : json) : bool :=
  match v with
  | JNone => false
  | JBool b => b
  | JInt z => negb (z =? 0)%Z
  | JFloat f => match f with S754_zero _ => false | _ => true end
  | JStr s => nonempty s
  | JList l => match l with [] => false | _ => true end
  | JDict d => match d with [] => false | _ => true end
  end.

(** [d.get(key)] on a dict. *)
Fixpoint dict_get (key : str) (d : list (str * json)) : option json :=
  match d with
  | [] => None
  | (k, v) :: d' => if PyStr.eqb k key then Some v else dict_get key d'
  end.

(** [d[key] = v]: an existing key keeps its place. *)
Fixpoint dict_set (key : str) (v : json) (d : list (str * json))
  : list (str * json) :=
  match d with
  | [] => [(key, v)]
  | (k, w) :: d' =>
      if PyStr.eqb k key then (k, v) :: d' else (k, w) :: dict_set key v d'
  end.

End Json.

Import Json.

(** ** A decoder for JSON texts

    [json.loads] belongs to Python's library.  The program is embedded
    over an arbitrary decoder (a variable of the sections below);
    [JsonText.loads] is the decoder on the fragment of JSON without
    fractions, exponents and [\u] escapes, on which the concrete runs of
    this file are evaluated. *)

Module JsonText.

Definition dquote : ascii := ascii_of_nat 34.
Definition backslash : ascii := ascii_of_nat 92.

(** A text written with ['] for the double quote. *)
Definition quoted (s : string) : str :=
  map (fun c => if Ascii.eqb c "'"%char then dquote else c) (lit s).

(** JSON's own whitespace: space, TAB, LF, CR. *)
Definition json_ws (c : ascii) : bool :=
  let n := nat_of_ascii c in (n =? 32) || (n =? 9) || (n =? 10) || (n =? 13).

Fixpoint skip_ws (s : str) : str :=
  match s with
  | c :: s' => if json_ws c then skip_ws s' else s
  | [] => []
  end.

Definition is_digit (c : ascii) : bool :=
  let n := nat_of_ascii c in (48 <=? n) && (n <=? 57).

(** The characters of a string after its opening quote, up to the closing
    one; control characters are refused, as in strict mode. *)
Fixpoint string_body (s : str) (acc : str) : option (str * str) :=
  match s with
  | [] => None
  | c :: s' =>
      if Ascii.eqb c dquote then Some (rev acc, s')
      else if Ascii.eqb c backslash then
        match s' with
        | e :: s'' =>
            let esc (x : ascii) := string_body s'' (x :: acc) in
            if Ascii.eqb e dquote then esc dquote
            else if Ascii.eqb e backslash then esc backslash
            else if Ascii.eqb e "/" then esc "/"%char
            else if Ascii.eqb e "b" then esc (ascii_of_nat 8)
            else if Ascii.eqb e "f" then esc (ascii_of_nat 12)
            else if Ascii.eqb e "n" then esc (ascii_of_nat 10)
            else if Ascii.eqb e "r" then esc (ascii_of_nat 13)
            else if Ascii.eqb e "t" then esc (ascii_of_nat 9)
            else None
        | [] => None
        end
      else if nat_of_ascii c <? 32 then None
      else string_body s' (c :: acc)
  end.

(** A run of digits, read as a number in base ten. *)
Fixpoint digits (s : str) (acc : Z) : Z * str :=
  match s with
  | c :: s' =>
      if is_digit c
      then digits s' (10 * acc + Z.of_nat (nat_of_ascii c - 48))%Z
      else (acc, s)
  | [] => (acc, [])
  end.

(** An integer: [0] or a digit from 1 to 9 and more digits; a fraction
    or an exponent after it is outside the fragment. *)
Definition natural (s : str) : option (Z * str) :=
  match s with
  | c :: s' =>
      if negb (is_digit c) then None
      else
        let '(z, rest) := if Ascii.eqb c "0" then (0%Z, s') else digits s 0 in
        match rest with
        | d :: _ =>
            if Ascii.eqb d "." || Ascii.eqb d "e" || Ascii.eqb d "E"
            then None else Some (z, rest)
        | [] => Some (z, rest)
        end
  | [] => None
  end.

(** The elements of an array after the first, up to its bracket. *)
Fixpoint elements (value : str -> option (json * str)) (n : nat) (s : str)
  (acc : list json) : option (list json * str) :=
  match n with
  | O => None
  | S n' =>
      match skip_ws s with
      | c :: s' =>
          if Ascii.eqb c "]" then Some (rev acc, s')
          else if Ascii.eqb c "," then
            match value s' with
            | Some (v, rest) => elements value n' rest (v :: acc)
            | None => None
            end
          else None
      | [] => None
      end
  end.

(** A member ["key" : value] of an object. *)
Definition member (value : str -> option (json * str)) (s : str)
  : option ((str * json) * str) :=
  match skip_ws s with
  | c :: s' =>
      if Ascii.eqb c dquote then
        match string_body s' [] with
        | Some (key, rest) =>
            match skip_ws rest with
            | d :: rest' =>
                if Ascii.eqb d ":" then
                  match value rest' with
                  | Some (v, rest'') => Some ((key, v), rest'')
                  | None => None
                  end
                else None
            | [] => None
            end
        | None => None
        end
      else None
  | [] => None
  end.

(** The members of an object after the first, up to its brace. *)
Fixpoint members (value : str -> option (json * str)) (n : nat) (s : str)
  (acc : list (str * json)) : option (list (str * json) * str) :=
  match n with
  | O => None
  | S n' =>
      match skip_ws s with
      | c :: s' =>
          if Ascii.eqb c "}" then Some (acc, s')
          else if Ascii.eqb c "," then
            match member value s' with
            | Some ((key, v), rest) =>
                members value n' rest (dict_set key v acc)
            | None => None
            end
          else None
      | [] => None
      end
  end.

(** A value, with the whitespace before it; [fuel] bounds the nesting. *)
Fixpoint value (fuel : nat) (s : str) : option (json * str) :=
  match fuel with
  | O => None
  | S fuel' =>
      let s0 := skip_ws s in
      if startswith (lit "null") s0 then Some (JNone, skipn 4 s0)
      else if startswith (lit "true") s0 then Some (JBool true, skipn 4 s0)
      else if startswith (lit "false") s0 then Some (JBool false, skipn 5 s0)
      else if startswith (lit "NaN") s0 then Some (JFloat S754_nan, skipn 3 s0)
      else if startswith (lit "Infinity") s0
      then Some (JFloat (S754_infinity false), skipn 8 s0)
      else if startswith (lit "-Infinity") s0
      then Some (JFloat (S754_infinity true), skipn 9 s0)
      else
        match s0 with
        | c :: s' =>
            if Ascii.eqb c dquote then
              match string_body s' [] with
              | Some (x, rest) => Some (JStr x, rest)
              | None => None
              end
            else if Ascii.eqb c "-" then
              match natural s' with
              | Some (z, rest) => Some (JInt (- z), rest)
              | None => None
              end
            else if is_digit c then
              match natural s0 with
              | Some (z, rest) => Some (JInt z, rest)
              | None => None
              end
            else if Ascii.eqb c "[" then
              match skip_ws s' with
              | d :: s'' =>
                  if Ascii.eqb d "]" then Some (JList [], s'')
                  else
                    match value fuel' s' with
                    | Some (v, rest) =>
                        match elements (value fuel') (List.length rest) rest [v] with
                        | Some (l, rest') => Some (JList l, rest')
                        | None => None
                        end
                    | None => None
                    end
              | [] => None
              end
            else if Ascii.eqb c "{" then
              match skip_ws s' with
              | d :: s'' =>
                  if Ascii.eqb d "}" then Some (JDict [], s'')
                  else
                    match member (value fuel') s' with
                    | Some (kv, rest) =>
                        match members (value fuel') (List.length rest) rest [kv] with
                        | Some (d, rest') => Some (JDict d, rest')
                        | None => None
                        end
                    | None => None
                    end
              | [] => None
              end
            else None
        | [] => None
        end
  end.

(** [json.loads(s)] on the fragment: one value, with nothing but
    whitespace after it; any failure is a [JSONDecodeError]. *)
Definition loads (s : str) : outcome json :=
  match value (S (List.length s)) s with
  | Some (v, rest) =>
      match skip_ws rest with
      | [] => Return v
      | _ :: _ => Raise (JSONDecodeError (lit "Extra data"))
      end
  | None => Raise (JSONDecodeError (lit "Expecting value"))
  end.

End JsonText.

(** ** The world outside the program *)

(** An entry of the provider's catalog, as [genai.list_models()] yields
    them. *)
Record Model := {
  name : str;
  supported_generation_methods : list str
}.

(** The response of [model.generate_content]: the finish reason of each
    candidate (none when the attribute is absent or the list empty), and
    what reading [response.text] gives. *)
Record Response := {
  candidates : list Z;
  text : outcome str
}.

(** What the program asks of its environment.  [generate_content n m c]
    answers the [n]-th generation call of the run, made on model [m] with
    text [c]: any sequence of answers is some such function. *)
Record Env := {
  getenv_api_key : option str;
  pdf_files : str -> option (outcome (list (outcome str)));
  list_models : str -> outcome (list Model);
  GenerativeModel : str -> outcome unit;
  generate_content : nat -> str -> str -> outcome Response;
  open_csv : str -> outcome unit
}.

(** A value interpolated in a printed line. *)
Inductive arg :=
| AStr (s : str)
| AInt (z : Z)
| AExn (e : exn).

(** What the run has done so far: the number of generation calls, the
    seconds passed to [time.sleep] (latest first), the lines printed
    (latest first; a line is the source line of its [print] and the values
    it interpolates), and the CSV files written (path and rows). *)
Record World := {
  calls : nat;
  slept : list Z;
  console : list (nat * list arg);
  csv_files : list (str * list (list json))
}.

Definition world0 : World :=
  {| calls := 0; slept := []; console := []; csv_files := [] |}.

(** A run that has made [n] generation calls and nothing else. *)
Definition at_call (n : nat) : World :=
  {| calls := n; slept := []; console := []; csv_files := [] |}.

(** Computations on the world. *)
Definition M (A : Type) : Type := World -> A * World.

Definition ret {A} (a : A) : M A := fun w => (a, w).

Definition bind {A B} (m : M A) (f : A -> M B) : M B :=
  fun w => let r := m w in f (fst r) (snd r).

Notation "x <- c1 ;; c2" := (bind c1 (fun x => c2))
  (at level 61, c1 at next level, right associativity).
Notation "c1 ;; c2" := (bind c1 (fun _ => c2))
  (at level 61, right associativity).

(** [print(...)] at source line [line]. *)
Definition print (line : nat) (args : list arg) : M unit :=
  fun w => (tt, {| calls := calls w; slept := slept w;
                   console := (line, args) :: console w;
                   csv_files := csv_files w |}).

(** [time.sleep(seconds)] *)
Definition sleep (seconds : Z) : M unit :=
  fun w => (tt, {| calls := calls w; slept := seconds :: slept w;
                   console := console w; csv_files := csv_files w |}).

(** A file replaced by [open(csv_path, mode='w')] and the rows written. *)
Definition write_file (path : str) (rows : list (list json)) : M unit :=
  fun w => (tt, {| calls := calls w; slept := slept w; console := console w;
                   csv_files := (path, rows) :: csv_files w |}).

Definition when (b : bool) (m : M unit) : M unit := if b then m else ret tt.

(** A computation that reads of the world the number of generation calls
    only: its value and the calls it makes are the same in two worlds
    that agree on that number. *)
Definition calls_only {A} (m : M A) : Prop :=
  forall w w', calls w = calls w' ->
    fst (m w) = fst (m w') /\ calls (snd (m w)) = calls (snd (m w')).

(** Truth value of a list. *)
Definition nonnil {A} (l : list A) : bool :=
  match l with [] => false | _ :: _ => true end.

(** ** TextExtractor *)

Module Pdf.

(** [[page.extract_text() for page in reader.pages if page.extract_text()]]:
    the first page whose extraction raises ends the comprehension. *)
Fixpoint text_parts (pages : list (outcome str)) : outcome (list str) :=
  match pages with
  | [] => Return []
  | Raise e :: _ => Raise e
  | Return t :: rest =>
      match text_parts rest with
      | Raise e => Raise e
      | Return parts => Return (if nonempty t then t :: parts else parts)
      end
  end.

(** [extract_text_from_pdf(pdf_path)]; [None] is Python's [None]. *)
Definition extract_text_from_pdf (env : Env) (pdf_path : str)
  : M (outcome (option str)) :=
  match pdf_files env pdf_path with
  | None => print 12 [AStr pdf_path] ;; ret (Return None)
  | Some reader =>
      print 15 [AStr pdf_path] ;;
      let body :=
        match reader with
        | Raise e => Raise e
        | Return pages => text_parts pages
        end in
      match body with
      | Return [] => print 21 [] ;; ret (Return None)
      | Return parts =>
          let full_text := join [LF] parts in
          print 25 [AInt (len full_text); AInt (Z.of_nat (List.length parts))] ;;
          ret (Return (Some full_text))
      | Raise e => print 28 [AExn e] ;; ret (Return None)
      end
  end.

(** There is no file at [pdf_path]. *)
Definition absent (env : Env) (pdf_path : str) : Prop :=
  pdf_files env pdf_path = None.

(** The file at [pdf_path] can be read and every page of it yields the
    empty text. *)
Definition image_only (env : Env) (pdf_path : str) : Prop :=
  exists pages, pdf_files env pdf_path = Some (Return pages)
                /\ Forall (fun page => page = Return []) pages.

End Pdf.

(** ** ModelSelector *)

Module Models.

Definition preferred_order : list str :=
  [ lit "gemini-2.0-flash"; lit "gemini-2.5-flash"; lit "gemini-flash-latest";
    lit "gemini-2.0-flash-lite"; lit "gemini-2.5-flash-lite";
    lit "gemini-2.5-pro"; lit "gemini-pro-latest" ].

(** [x in l] for a list of strings. *)
Definition in_list (x : str) (l : list str) : bool :=
  existsb (PyStr.eqb x) l.

(** Lines 47-50: the names of the models that support
    ['generateContent'], in catalog order. *)
Fixpoint available_of (catalog : list Model) : list str :=
  match catalog with
  | [] => []
  | model :: rest =>
      if in_list (lit "generateContent") (supported_generation_methods model)
      then name model :: available_of rest
      else available_of rest
  end.

(** Lines 55-57: [for available in available_models], for one
    [preferred]. *)
Fixpoint add_matching (preferred : str) (available_models sorted_models : list str)
  : list str :=
  match available_models with
  | [] => sorted_models
  | available :: rest =>
      add_matching preferred rest
        (if contains preferred available && negb (in_list available sorted_models)
         then sorted_models ++ [available] else sorted_models)
  end.

(** Lines 54-57: [for preferred in preferred_order]. *)
Fixpoint add_preferred (preferred_order available_models sorted_models : list str)
  : list str :=
  match preferred_order with
  | [] => sorted_models
  | preferred :: rest =>
      add_preferred rest available_models
        (add_matching preferred available_models sorted_models)
  end.

(** Lines 60-62: the remaining models. *)
Fixpoint add_remaining (available_models sorted_models : list str) : list str :=
  match available_models with
  | [] => sorted_models
  | available :: rest =>
      add_remaining rest
        (if negb (in_list available sorted_models)
         then sorted_models ++ [available] else sorted_models)
  end.

(** Lines 47-64 on a catalog that was listed. *)
Definition sort_models (catalog : list Model) : list str :=
  let available_models := available_of catalog in
  add_remaining available_models
    (add_preferred preferred_order available_models []).

(** The place of [x] in [l]: the index of its first occurrence. *)
Fixpoint index_of (x : str) (l : list str) : nat :=
  match l with
  | [] => 0
  | y :: l' => if PyStr.eqb x y then 0 else S (index_of x l')
  end.

(** The rank of a model name: the index of the first entry of the
    preference list that occurs in it, and the length of the list when
    none does. *)
Fixpoint rank_in (preferred_order : list str) (x : str) : nat :=
  match preferred_order with
  | [] => 0
  | preferred :: rest =>
      if contains preferred x then 0 else S (rank_in rest x)
  end.

Definition rank (x : str) : nat := rank_in preferred_order x.

(** [x] comes before [y] in [l]. *)
Definition before (l : list str) (x y : str) : Prop :=
  index_of x l < index_of y l.

(** The candidates in the order the loops visit them: for each entry of
    the preference list, the names it occurs in. *)
Definition visits (preferred_order available : list str) : list str :=
  flat_map (fun preferred => filter (contains preferred) available) preferred_order.

(** [x] matches the preference list: some entry occurs in it. *)
Definition preferred_match (x : str) : Prop :=
  exists preferred, In preferred preferred_order /\ contains preferred x = true.

(** [model] supports content generation. *)
Definition generates (model : Model) : Prop :=
  in_list (lit "generateContent") (supported_generation_methods model) = true.

(** What the specification asks of the selection [result] made from
    [catalog]: it holds the names of the models that support content
    generation and no other; a name that matches the preference list comes
    before one that does not; and of two names the one of lower rank
    comes first, and at equal rank the one that is first in the catalog. *)
Definition selected_by_preference (catalog : list Model) (result : list str) : Prop :=
  (forall x, In x result <->
             exists model, In model catalog /\ name model = x /\ generates model)
  /\ (forall x y, In x result -> In y result ->
       preferred_match x -> ~ preferred_match y -> before result x y)
  /\ (forall x y, In x result -> In y result ->
       (before result x y <->
        rank x < rank y
        \/ (rank x = rank y /\ before (available_of catalog) x y))).

(** [get_available_models(api_key)] *)
Definition get_available_models (env : Env) (api_key : str) : M (list str) :=
  match list_models env api_key with
  | Return catalog => ret (sort_models catalog)
  | Raise e => print 67 [AExn e] ;; ret []
  end.

End Models.

(** ** ExtractionClient *)

Module Client.

(** The marker of a fenced code block, and the marker with its language
    tag. *)
Definition fence : str := lit "```".
Definition fence_json : str := lit "```json".

(** Line 156, with [re.DOTALL]: the fence, an optional [json], blanks, then as
    group 1 a bracket, the shortest run of any characters and a bracket,
    then blanks and the fence. *)
Definition fence_pattern : Regex.regex :=
  Regex.Cat (Regex.lits fence)
    (Regex.Cat (Regex.Opt (Regex.lits (lit "json")))
       (Regex.Cat (Regex.Star isspace)
          (Regex.Cat
             (Regex.Group
                (Regex.Cat (Regex.Chr "[")
                   (Regex.Cat (Regex.StarLazy (fun _ => true)) (Regex.Chr "]"))))
             (Regex.Cat (Regex.Star isspace) (Regex.lits fence))))).

(** What [fence_pattern] asks of the text after the bracket that closes
    group 1: blanks and the fence. *)
Definition closes (t : str) : bool := startswith fence (lstrip t).

(** What it asks at a place [t] inside group 1, which began at [s0]: a
    closing bracket and a text that [closes]; group 1 is then the text
    from [s0] up to that bracket. *)
Definition close_bracket (s0 t : str) : option (option str) :=
  match t with
  | c :: t' =>
      if Ascii.eqb "]" c && closes t'
      then Some (Some (firstn (List.length s0 - List.length t') s0))
      else None
  | [] => None
  end.

(** What it asks after the fence, its tag and the blanks: an opening
    bracket, and the first place after it where [close_bracket] holds. *)
Definition bracket_group (s0 : str) : option (option str) :=
  match s0 with
  | c :: v =>
      if Ascii.eqb "[" c
      then Regex.star_lazy (fun _ => true) v (close_bracket s0)
      else None
  | [] => None
  end.

(** A completion body in a fenced block: the marker with its tag, a
    line break, the body, a line break, the marker. *)
Definition fenced (body : str) : str :=
  fence_json ++ [LF] ++ body ++ [LF] ++ fence.

(** Lines 151-160: the text handed to [json.loads].  A match whose group
    1 is unset would hand it [None], a [TypeError]. *)
Definition clean_response_text (response_text : str) : outcome str :=
  let cleaned_json_text := strip response_text in
  if contains fence cleaned_json_text then
    match Regex.search fence_pattern cleaned_json_text with
    | Some (Some group1) => Return group1
    | Some None => Raise (Exception (lit "TypeError"))
    | None =>
        Return (strip (replace fence [] (replace fence_json [] cleaned_json_text)))
    end
  else Return cleaned_json_text.

(** Lines 178 and 267: the text of a rate-limit or quota error. *)
Definition is_rate_limit (error_msg : str) : bool :=
  contains (lit "429") error_msg || contains (lit "quota") (lower error_msg).

(** Lines 140-142: the response has a candidate and the first one did not
    finish with [STOP] (1). *)
Definition stopped (response : Response) : bool :=
  match candidates response with
  | finish_reason :: _ => negb (finish_reason =? 1)%Z
  | [] => false
  end.

(** The waits [2 ** (attempt + 4)] of [k] attempts in a row, from
    [attempt] on. *)
Fixpoint waits_from (attempt : Z) (k : nat) : list Z :=
  match k with
  | O => []
  | S k' => (2 ^ (attempt + 4))%Z :: waits_from (attempt + 1)%Z k'
  end.

(** The waits before the retries of a call that is rate-limited every
    time: one after each attempt but the last. *)
Definition backoffs (max_retries : Z) : list Z :=
  waits_from 0 (Z.to_nat max_retries - 1).



Section WithDecoder.

(** [json.loads] *)
Variable json_loads : str -> outcome json.

(** Lines 151-163: the value [json.loads] gives for a completion text. *)
Definition loads_response_text (response_text : str) : outcome json :=
  match clean_response_text response_text with
  | Raise e => Raise e
  | Return cleaned_json_text => json_loads cleaned_json_text
  end.

(** Lines 165-169: a list is the record set; another value is wrapped in a
    list when it is true, and gives no record otherwise. *)
Definition records_of (parsed_data : json) : list json :=
  match parsed_data with
  | JList l => l
  | _ => if truthy parsed_data then [parsed_data] else []
  end.

(** Lines 151-169 without their [print]: the record set a completion text
    is parsed to. *)
Definition parse_response_text (response_text : str) : outcome (list json) :=
  match loads_response_text response_text with
  | Raise e => Raise e
  | Return parsed_data => Return (records_of parsed_data)
  end.

Variable env : Env.

(** [model.generate_content([prompt, chunk])]: the next generation call
    of the run. *)
Definition call_generate (model chunk : str) : M (outcome Response) :=
  fun w => (generate_content env (calls w) model chunk,
            {| calls := S (calls w); slept := slept w; console := console w;
               csv_files := csv_files w |}).

(** Lines 137-169: the body of the [try] of one attempt.  [Return l] is
    [return l]; [Raise e] goes to the handlers. *)
Definition try_attempt (model chunk : str) (chunk_num : Z)
  : M (outcome (list json)) :=
  r <- call_generate model chunk ;;
  match r with
  | Raise e => ret (Raise e)
  | Return response =>
      if stopped response then
        let finish_reason := hd 0%Z (candidates response) in
        print 143 [AInt chunk_num; AInt finish_reason] ;;
        (if (finish_reason =? 2)%Z then print 145 []
         else if (finish_reason =? 3)%Z then print 147 []
         else ret tt) ;;
        ret (Return [])
      else
        match text response with
        | Raise e => ret (Raise e)
        | Return response_text =>
            match loads_response_text response_text with
            | Raise e => ret (Raise e)
            | Return parsed_data =>
                match parsed_data with
                | JList l =>
                    print 166 [AInt (Z.of_nat (List.length l)); AInt chunk_num]
                | _ => ret tt
                end ;;
                ret (Return (records_of parsed_data))
            end
        end
  end.

(** Lines 135-192: [for attempt in range(max_retries)] from [attempt]
    on, with [n] iterations left, and the [return []] after the loop. *)
Fixpoint attempts (n : nat) (attempt : Z) (model chunk : str)
  (chunk_num max_retries : Z) : M (outcome (list json)) :=
  match n with
  | O => ret (Return [])
  | S n' =>
      r <- try_attempt model chunk chunk_num ;;
      match r with
      | Return records => ret (Return records)
      | Raise (JSONDecodeError msg) =>
          print 172 [AInt chunk_num; AInt (attempt + 1); AStr msg] ;;
          when (attempt <? max_retries - 1)%Z (sleep (2 ^ attempt)) ;;
          attempts n' (attempt + 1)%Z model chunk chunk_num max_retries
      | Raise (Exception error_msg) =>
          if is_rate_limit error_msg then
            print 179 [AInt chunk_num; AInt (attempt + 1)] ;;
            if (attempt <? max_retries - 1)%Z then
              let wait_time := (2 ^ (attempt + 4))%Z in
              print 182 [AInt wait_time] ;;
              sleep wait_time ;;
              attempts n' (attempt + 1)%Z model chunk chunk_num max_retries
            else
              print 186 [AInt chunk_num] ;;
              ret (Return [])
          else
            print 189 [AInt chunk_num; AStr error_msg] ;;
            ret (Return [])
      end
  end.

(** [extract_entities_from_chunk(model, chunk, chunk_num, total_chunks,
    max_retries)] *)
Definition extract_entities_from_chunk (model chunk : str)
  (chunk_num total_chunks max_retries : Z) : M (outcome (list json)) :=
  print 133 [AInt chunk_num; AInt total_chunks] ;;
  attempts (Z.to_nat max_retries) 0 model chunk chunk_num max_retries.

(** The default of [max_retries]. *)
Definition default_max_retries : Z := 3.

(** The [n]-th generation call was answered with a completion that ended
    normally and whose text decoded to the records [l]. *)
Definition answered (n : nat) (model chunk : str) (l : list json) : Prop :=
  exists response response_text parsed_data,
    generate_content env n model chunk = Return response
    /\ stopped response = false
    /\ text response = Return response_text
    /\ loads_response_text response_text = Return parsed_data
    /\ l = records_of parsed_data.

End WithDecoder.

End Client.

(** ** Orchestrator *)

Module Orchestrator.

(** How the body of a loop iteration ends: with [return v], or by going
    on to the next iteration. *)
Inductive flow (A : Type) :=
| Returned (v : A)
| Continue.

Arguments Returned {A} v.
Arguments Continue {A}.

Section WithDecoder.

Variable json_loads : str -> outcome json.
Variable env : Env.

(** Lines 236-244: [for i, chunk in enumerate(chunks, 1)], from the
    [i]-th chunk on. *)
Fixpoint chunks_loop (model : str) (chunks : list str) (i total : Z)
  (all_entities : list json) : M (outcome (list json)) :=
  match chunks with
  | [] => ret (Return all_entities)
  | chunk :: rest =>
      r <- Client.extract_entities_from_chunk json_loads env model chunk i total
             Client.default_max_retries ;;
      match r with
      | Raise e => ret (Raise e)
      | Return chunk_entities =>
          let all_entities' :=
            if nonnil chunk_entities then all_entities ++ chunk_entities
            else all_entities in
          when (i <? total)%Z (print 243 [] ;; sleep 5) ;;
          chunks_loop model rest (i + 1)%Z total all_entities'
      end
  end.

(** Lines 246-253 and 257-263: what the iteration does with the records
    of one model. *)
Definition conclude (entities : list json) (chunked : bool) (model_name : str)
  (model_index n_models : Z) : M (outcome (flow (option (list json)))) :=
  if nonnil entities then
    when chunked (print 247 [AInt (Z.of_nat (List.length entities))]) ;;
    ret (Return (Returned (Some entities)))
  else if (model_index <? n_models - 1)%Z then
    print (if chunked then 250 else 260) [AStr model_name] ;;
    ret (Return Continue)
  else ret (Return (Returned (Some []))).

(** Lines 213-263: the body of the inner [try] for one model. *)
Definition try_model (text model_name : str) (model_index n_models : Z)
  : M (outcome (flow (option (list json)))) :=
  print 213 [] ;; print 214 [AStr model_name] ;; print 215 [] ;;
  match GenerativeModel env model_name with
  | Raise e => ret (Raise e)
  | Return _ =>
      if (len text >? 120000)%Z then
        print 231 [AInt (len text)] ;;
        let chunks := Chunker.chunk_text text 120000 in
        let total := Z.of_nat (List.length chunks) in
        print 233 [AInt total] ;;
        r <- chunks_loop model_name chunks 1 total [] ;;
        match r with
        | Raise e => ret (Raise e)
        | Return all_entities =>
            conclude all_entities true model_name model_index n_models
        end
      else
        print 255 [] ;;
        r <- Client.extract_entities_from_chunk json_loads env model_name text 1 1
               Client.default_max_retries ;;
        match r with
        | Raise e => ret (Raise e)
        | Return entities =>
            conclude entities false model_name model_index n_models
        end
  end.

(** Lines 211-284: [for model_index, model_name in
    enumerate(available_models)] from [model_index] on, with the handler
    of the inner [try] and the [return None] after the loop. *)
Fixpoint models_loop (text : str) (models : list str) (model_index n_models : Z)
  : M (option (list json)) :=
  match models with
  | [] => ret None
  | model_name :: rest =>
      let next := models_loop text rest (model_index + 1)%Z n_models in
      r <- try_model text model_name model_index n_models ;;
      match r with
      | Return (Returned v) => ret v
      | Return Continue => next
      | Raise e =>
          let error_msg := exn_msg e in
          if Client.is_rate_limit error_msg then
            print 268 [AStr model_name] ;;
            if (model_index <? n_models - 1)%Z then
              print 270 [] ;; sleep 2 ;; next
            else
              print 274 [] ;; print 275 [] ;; ret None
          else
            print 278 [AStr model_name; AExn e] ;;
            if (model_index <? n_models - 1)%Z then next else ret None
      end
  end.

(** Lines 230-244 and 255-256: the records one model gathers, the value
    of [all_entities] at line 246 and of [entities] at line 257. *)
Definition gather (text model_name : str) : M (outcome (list json)) :=
  if (len text >? 120000)%Z then
    print 231 [AInt (len text)] ;;
    let chunks := Chunker.chunk_text text 120000 in
    let total := Z.of_nat (List.length chunks) in
    print 233 [AInt total] ;;
    chunks_loop model_name chunks 1 total []
  else
    print 255 [] ;;
    Client.extract_entities_from_chunk json_loads env model_name text 1 1
      Client.default_max_retries.

(** The accumulated result set is empty after every model: each model of
    [models] can be built and gathers no record from [text], the first
    one asked from the [n]-th generation call of the run on, and each
    next one from the call at which the one before it stopped. *)
Fixpoint every_model_empty (text : str) (models : list str) (n : nat) : Prop :=
  match models with
  | [] => True
  | model_name :: rest =>
      GenerativeModel env model_name = Return tt
      /\ fst (gather text model_name (at_call n)) = Return []
      /\ every_model_empty text rest
           (calls (snd (gather text model_name (at_call n))))
  end.

(** Lines 207-208: the first five models are listed. *)
Fixpoint print_models (models : list str) (i : Z) : M unit :=
  match models with
  | [] => ret tt
  | model :: rest => print 208 [AInt i; AStr model] ;; print_models rest (i + 1)%Z
  end.

(** [extract_entities_with_gemini(text, api_key)]; [None] is Python's
    [None].  Nothing in the body of the outer [try] raises outside the
    inner one. *)
Definition extract_entities_with_gemini (text api_key : str)
  : M (option (list json)) :=
  print 196 [] ;;
  available_models <- Models.get_available_models env api_key ;;
  if negb (nonnil available_models) then print 202 [] ;; ret None
  else
    let n_models := Z.of_nat (List.length available_models) in
    print 205 [AInt n_models] ;; print 206 [] ;;
    print_models (firstn 5 available_models) 1 ;;
    models_loop text available_models 0 n_models.

End WithDecoder.

End Orchestrator.

(** ** CsvWriter and the script *)

Module Csv.

Definition header : list json :=
  [ JStr (lit "Entity (PAN)"); JStr (lit "Relation"); JStr (lit "Entity (Person)") ].

(** [item.get(key, '')]: only a [dict] has it. *)
Definition get (item : json) (key : str) : outcome json :=
  match item with
  | JDict d =>
      Return (match dict_get key d with Some v => v | None => JStr [] end)
  | _ => Raise (Exception (lit "AttributeError"))
  end.

(** Lines 304-308: the row of one record. *)
Definition row_of (item : json) : outcome (list json) :=
  match get item (lit "pan"), get item (lit "relation"), get item (lit "entity") with
  | Return p, Return r, Return e => Return [p; r; e]
  | Raise x, _, _ => Raise x
  | _, Raise x, _ => Raise x
  | _, _, Raise x => Raise x
  end.

(** Lines 303-308: the rows written before the loop ends or raises. *)
Fixpoint rows_of (data : list json) : list (list json) * option exn :=
  match data with
  | [] => ([], None)
  | item :: rest =>
      match row_of item with
      | Raise e => ([], Some e)
      | Return row => let '(rows, err) := rows_of rest in (row :: rows, err)
      end
  end.

(** [write_to_csv(data, csv_path)] *)
Definition write_to_csv (env : Env) (data : list json) (csv_path : str) : M unit :=
  if negb (nonnil data) then print 293 []
  else
    print 296 [AInt (Z.of_nat (List.length data)); AStr csv_path] ;;
    match open_csv env csv_path with
    | Raise e => print 311 [AExn e]
    | Return _ =>
        let '(rows, err) := rows_of data in
        write_file csv_path (header :: rows) ;;
        match err with
        | None => print 309 [AStr csv_path]
        | Some e => print 311 [AExn e]
        end
    end.

Section WithDecoder.

Variable json_loads : str -> outcome json.
Variable env : Env.

Definition PDF_FILE_PATH : str := lit "toext.pdf".
Definition OUTPUT_CSV_PATH : str := lit "result.csv".

(** [main()]: it has no handler of its own, an exception of
    [extract_text_from_pdf] would leave it. *)
Definition main : M (outcome unit) :=
  print 320 [] ;; print 321 [] ;; print 322 [] ;;
  match getenv_api_key env with
  | None => print 328 [] ;; ret (Return tt)
  | Some api_key =>
      if negb (nonempty api_key) then print 328 [] ;; ret (Return tt)
      else
        r <- Pdf.extract_text_from_pdf env PDF_FILE_PATH ;;
        match r with
        | Raise e => ret (Raise e)
        | Return None => print 335 [] ;; ret (Return tt)
        | Return (Some pdf_text) =>
            if negb (nonempty pdf_text) then print 335 [] ;; ret (Return tt)
            else
              extracted_data <-
                Orchestrator.extract_entities_with_gemini json_loads env
                  pdf_text api_key ;;
              match extracted_data with
              | None =>
                  print 342 [] ;; print 343 [] ;; print 344 [] ;;
                  print 345 [] ;; print 346 [] ;;
                  ret (Return tt)
              | Some data =>
                  when (negb (nonnil data)) (print 350 []) ;;
                  write_to_csv env data OUTPUT_CSV_PATH ;;
                  print 355 [] ;; print 356 [] ;; print 357 [] ;;
                  ret (Return tt)
              end
        end
  end.

End WithDecoder.

End Csv.

(** ** Concrete runs *)

Module Runs.

(** An environment with the given catalog and generation answers, a key,
    no PDF file, and constructors and files that never fail. *)
Definition env_of (catalog : list Model)
  (answers : nat -> str -> str -> outcome Response) : Env :=
  {| getenv_api_key := Some (lit "key");
     pdf_files := fun _ => None;
     list_models := fun _ => Return catalog;
     GenerativeModel := fun _ => Return tt;
     generate_content := answers;
     open_csv := fun _ => Return tt |}.

Definition model_of (model_name method : string) : Model :=
  {| name := lit model_name; supported_generation_methods := [lit method] |}.

(** A catalog in an order that is not the preferred one, with a model
    that cannot generate. *)
Definition catalog4 : list Model :=
  [ model_of "models/gemini-2.5-pro" "generateContent";
    model_of "models/embedding-001" "embedContent";
    model_of "models/gemma-3" "generateContent";
    model_of "models/gemini-2.0-flash-lite" "generateContent";
    model_of "models/gemini-2.0-flash" "generateContent" ].

(** A completion that ended normally with the given text. *)
Definition completion (body : str) : Response :=
  {| candidates := [1%Z]; text := Return body |}.

(** Every generation call raises an exception with the given text. *)
Definition env_raising (error_msg : string) : Env :=
  env_of catalog4 (fun _ _ _ => Raise (Exception (lit error_msg))).

(** Every generation call is answered with the given completion text. *)
Definition env_answering (body : str) : Env :=
  env_of catalog4 (fun _ _ _ => Return (completion body)).

(** A completion whose record mentions the fence marker in a string,
    after a bracket, and the record it stands for when it is not
    fenced. *)
Definition body_nested : str :=
  JsonText.quoted
    "[{'pan':'AAUFM6247N','relation':'PAN_Of','entity':'A [x] ``` y'}]".

Definition record_nested : json :=
  JDict [ (lit "pan", JStr (lit "AAUFM6247N"));
          (lit "relation", JStr (lit "PAN_Of"));
          (lit "entity", JStr (lit "A [x]  y")) ].

(** A completion of one record, free of the fence marker. *)
Definition body_plain : str :=
  JsonText.quoted
    "[{'pan':'AAUFM6247N','relation':'PAN_Of','entity':'Mr. Agarwal'}]".

(** A PDF file at every path, with the given pages. *)
Definition env_pdf (pages : list (outcome str)) : Env :=
  {| getenv_api_key := Some (lit "key");
     pdf_files := fun _ => Some (Return pages);
     list_models := fun _ => Return catalog4;
     GenerativeModel := fun _ => Return tt;
     generate_content := fun _ _ _ => Raise (Exception []);
     open_csv := fun _ => Return tt |}.

(** The completion [[]]: no pair was found. *)
Definition body_no_pairs : str := lit "[]".

(** A PDF of one page of text, and models that all answer [[]]. *)
Definition env_no_pairs : Env :=
  {| getenv_api_key := Some (lit "key");
     pdf_files := fun _ => Some (Return [Return (lit "No PAN in this document.")]);
     list_models := fun _ => Return catalog4;
     GenerativeModel := fun _ => Return tt;
     generate_content := fun _ _ _ => Return (completion body_no_pairs);
     open_csv := fun _ => Return tt |}.



(** A quota that recovers: the first three generation calls hit the
    quota, the later ones are answered, with [[]] for [document] and with
    a record for any other text. *)
Definition env_recovering (document : str) : Env :=
  env_of catalog4
    (fun n _ chunk =>
       if n <? 3 then Raise (Exception (lit "429 quota exceeded"))
       else Return (completion (if PyStr.eqb chunk document then body_no_pairs
                                else body_plain))).

End Runs.

(** ** Notions of the further properties *)

(** A group of sections keeps the bound: when it has two sections or
    more, the chunk that spells it has at most [max_chars + 1]
    characters.  The test of line 79 leaves the separator put after a
    section out of its count. *)
Definition group_within (max_chars : Z) (group : list str) : Prop :=
  2 <= List.length group -> (len (Chunker.terminated group) <= max_chars + 1)%Z.

(** A section that alone reaches the bound shares its group with no
    other section. *)
Definition oversized_alone (max_chars : Z) (group : list str) : Prop :=
  forall sec, In sec group -> (max_chars <= len sec)%Z -> group = [sec].

(** The cell of a record under a column: the value of the key, the empty
    string when the key is missing. *)
Definition csv_cell (d : list (str * json)) (key : str) : json :=
  match dict_get key d with Some v => v | None => JStr [] end.

(** The row of a record that is a [dict]. *)
Definition csv_row (d : list (str * json)) : list json :=
  [csv_cell d (lit "pan"); csv_cell d (lit "relation"); csv_cell d (lit "entity")].

Definition is_dict (v : json) : bool :=
  match v with JDict _ => true | _ => false end.

(** The waits [2 ** attempt] of [k] attempts in a row, from [attempt] on
    (line 174). *)
Fixpoint decode_waits_from (attempt : Z) (k : nat) : list Z :=
  match k with
  | O => []
  | S k' => (2 ^ attempt)%Z :: decode_waits_from (attempt + 1)%Z k'
  end.

(** The [n]-th generation call on [model] and [chunk] ends the retry
    loop without a record: the completion did not finish with [STOP], or
    the call raised an exception that is no rate limit. *)
Definition gives_up (env : Env) (n : nat) (model chunk : str) : Prop :=
  (exists response, generate_content env n model chunk = Return response
                    /\ Client.stopped response = true)
  \/ (exists msg, generate_content env n model chunk = Raise (Exception msg)
                  /\ Client.is_rate_limit msg = false).

(** The [n]-th generation call is answered by a completion that ended
    normally and whose text [json.loads] refuses. *)
Definition undecodable (json_loads : str -> outcome json) (env : Env) (n : nat)
  (model chunk : str) : Prop :=
  exists response response_text msg,
    generate_content env n model chunk = Return response
    /\ Client.stopped response = false
    /\ text response = Return response_text
    /\ Client.loads_response_text json_loads response_text
       = Raise (JSONDecodeError msg).

(** The [n]-th generation call is answered by a completion that ended
    normally and whose text decodes to [parsed_data]. *)
Definition decodes_to (json_loads : str -> outcome json) (env : Env) (n : nat)
  (model chunk : str) (parsed_data : json) : Prop :=
  exists response response_text,
    generate_content env n model chunk = Return response
    /\ Client.stopped response = false
    /\ text response = Return response_text
    /\ Client.loads_response_text json_loads response_text = Return parsed_data.

(** The models [get_available_models] returns: none when the catalog
    cannot be listed. *)
Definition available_models (env : Env) (api_key : str) : list str :=
  match list_models env api_key with
  | Return catalog => Models.sort_models catalog
  | Raise _ => []
  end.

(** Lines 230-256: the texts sent to a model, the chunks of a text of
    more than 120000 characters, the text itself otherwise. *)
Definition pieces (text : str) : list str :=
  if (len text >? 120000)%Z then Chunker.chunk_text text 120000 else [text].

(** The texts [texts] are sent one after the other to [model], the
    first one as the [n]-th generation call of the run, and each is
    answered by a completion that ended normally and whose text decodes
    to a list: [answers] has the list of each text, in order. *)
Fixpoint answered_in_turn (json_loads : str -> outcome json) (env : Env)
  (model : str) (texts : list str) (n : nat) (answers : list (list json)) : Prop :=
  match texts, answers with
  | [], [] => True
  | chunk :: texts', l :: answers' =>
      decodes_to json_loads env n model chunk (JList l)
      /\ answered_in_turn json_loads env model texts' (S n) answers'
  | _, _ => False
  end.

(** A catalog that cannot be listed. *)
Definition env_no_catalog : Env :=
  {| getenv_api_key := Some (lit "key");
     pdf_files := fun _ => None;
     list_models := fun _ => Raise (Exception (lit "403 permission denied"));
     GenerativeModel := fun _ => Return tt;
     generate_content := fun _ _ _ => Raise (Exception []);
     open_csv := fun _ => Return tt |}.

(** Models that cannot be built. *)
Definition env_no_model : Env :=
  {| getenv_api_key := Some (lit "key");
     pdf_files := fun _ => None;
     list_models := fun _ => Return Runs.catalog4;
     GenerativeModel := fun _ => Raise (Exception (lit "404 model not found"));
     generate_content := fun _ _ _ => Raise (Exception []);
     open_csv := fun _ => Return tt |}.

(** The records of the example of the prompt. *)
Definition two_records : list json :=
  [ JDict [ (lit "pan", JStr (lit "AAUFM6247N")); (lit "relation", JStr (lit "PAN_Of"));
            (lit "entity", JStr (lit "Mr. Agarwal")) ];
    JDict [ (lit "pan", JStr (lit "AAACM9185B")); (lit "relation", JStr (lit "PAN_Of"));
            (lit "entity", JStr (lit "MFS PVT. LTD.")) ] ].

(** The completion that spells them. *)
Definition body_two_records : str :=
  JsonText.quoted
    "[{'pan':'AAUFM6247N','relation':'PAN_Of','entity':'Mr. Agarwal'}, {'pan':'AAACM9185B','relation':'PAN_Of','entity':'MFS PVT. LTD.'}]".

(** A key, a PDF of one page of text, four models that can be built, of
    which the first in the order of preference answers with the two
    records and the others hit their quota, and a file that can be
    opened. *)
Definition env_two_records : Env :=
  {| getenv_api_key := Some (lit "key");
     pdf_files :=
       fun _ => Some (Return [Return (lit "Noticee Mr. Agarwal, PAN AAUFM6247N")]);
     list_models := fun _ => Return Runs.catalog4;
     GenerativeModel := fun _ => Return tt;
     generate_content :=
       fun _ model _ =>
         if PyStr.eqb model (lit "models/gemini-2.0-flash-lite")
         then Return (Runs.completion body_two_records)
         else Raise (Exception (lit "429 quota exceeded"));
     open_csv := fun _ => Return tt |}.

(** The entries of the preference list that do not name a [-lite]
    model. *)
Definition preferred_without_lite : list str :=
  filter (fun preferred => negb (contains (lit "-lite") preferred))
    Models.preferred_order.

(** * Properties *)

(** ** Strings *)

Section StrFacts.

Lemma startswith_app (p s : str) : startswith p (p ++ s) = true.
Proof.
  induction p as [|a p IH]; simpl; [reflexivity|].
  now rewrite Ascii.eqb_refl, IH.
Qed.

Lemma startswith_inv (p s : str) :
  startswith p s = true -> exists t, s = p ++ t.
Proof.
  revert s; induction p as [|a p IH]; intros s H.
  - now exists s.
  - destruct s as [|b s]; simpl in H; [discriminate|].
    apply andb_true_iff in H as [Hab Hps].
    apply Ascii.eqb_eq in Hab; subst b.
    destruct (IH _ Hps) as [t ->].
    now exists t.
Qed.

Lemma join_cons (sep p : str) (ps : list str) :
  ps <> [] -> join sep (p :: ps) = p ++ sep ++ join sep ps.
Proof. destruct ps; [congruence | reflexivity]. Qed.

Lemma split_go_nonnil (sep s : str) (skip : nat) (cur : str) :
  split_go sep s skip cur <> [].
Proof.
  revert skip cur; induction s as [|c s IH]; intros skip cur; simpl.
  - discriminate.
  - destruct skip; [|apply IH].
    destruct (startswith sep (c :: s)); [discriminate | apply IH].
Qed.

(** Joining the pieces of a split gives the text back: in the middle of
    a separator, the text without the rest of that separator. *)
Lemma join_split_go (sep s : str) (skip : nat) (cur : str) :
  sep <> [] ->
  join sep (split_go sep s skip cur) = rev cur ++ skipn skip s.
Proof.
  intros Hsep.
  revert skip cur; induction s as [|c s IH]; intros skip cur.
  - simpl. now rewrite skipn_nil, app_nil_r.
  - simpl. destruct skip as [|k].
    + destruct (startswith sep (c :: s)) eqn:Hst.
      * rewrite join_cons by apply split_go_nonnil.
        rewrite IH. simpl.
        destruct (startswith_inv _ _ Hst) as [t Ht].
        destruct sep as [|a sep']; [congruence|].
        simpl in Ht. injection Ht as <- ->.
        simpl. rewrite Nat.sub_0_r.
        rewrite skipn_app, skipn_all, Nat.sub_diag. simpl.
        reflexivity.
      * rewrite IH. simpl. now rewrite <- app_assoc.
    + rewrite IH. reflexivity.
Qed.

Lemma join_split (sep s : str) : sep <> [] -> join sep (split sep s) = s.
Proof. intros H. unfold split. now rewrite join_split_go. Qed.

End StrFacts.

(** ** Chunker *)

Section ChunkerFacts.

Import Chunker.

Lemma terminated_join (sections : list str) :
  sections <> [] -> terminated sections = join para_sep sections ++ para_sep.
Proof.
  induction sections as [|sec rest IH]; intros H; [congruence|].
  destruct rest as [|sec' rest].
  - unfold terminated. simpl. now rewrite app_nil_r.
  - rewrite join_cons by discriminate.
    change (terminated (sec :: sec' :: rest))
      with ((sec ++ para_sep) ++ terminated (sec' :: rest)).
    rewrite IH by discriminate.
    now rewrite <- !app_assoc.
Qed.

Lemma concat_flush (chunks : list str) (cur : str) :
  List.concat (if nonempty cur then chunks ++ [cur] else chunks) = List.concat chunks ++ cur.
Proof.
  destruct cur as [|c cur]; simpl.
  - now rewrite app_nil_r.
  - rewrite List.concat_app. simpl. now rewrite app_nil_r.
Qed.

(** The loop neither drops nor repeats text: the chunks closed so far
    and the open one always spell what has been read. *)
Lemma chunk_loop_concat (max_chars : Z) (sections chunks : list str) (cur : str) :
  List.concat (fst (chunk_loop max_chars sections chunks cur))
    ++ snd (chunk_loop max_chars sections chunks cur)
  = List.concat chunks ++ cur ++ terminated sections.
Proof.
  revert chunks cur; induction sections as [|sec rest IH]; intros chunks cur.
  - simpl. unfold terminated. simpl. now rewrite app_nil_r.
  - simpl. destruct (len cur + len sec <? max_chars)%Z.
    + rewrite IH. unfold terminated. simpl. now rewrite <- !app_assoc.
    + rewrite IH, concat_flush. unfold terminated. simpl.
      now rewrite <- !app_assoc.
Qed.

(** After a section has been read the open chunk is not empty. *)
Lemma chunk_loop_open (max_chars : Z) (sections chunks : list str) (cur : str) :
  sections <> [] \/ cur <> [] ->
  snd (chunk_loop max_chars sections chunks cur) <> [].
Proof.
  revert chunks cur; induction sections as [|sec rest IH]; intros chunks cur H.
  - simpl. destruct H; congruence.
  - simpl. destruct (len cur + len sec <? max_chars)%Z; apply IH; right.
    + intros E. apply app_eq_nil in E as [_ E]. apply app_eq_nil in E as [_ E].
      discriminate.
    + intros E. apply app_eq_nil in E as [_ E]. discriminate.
Qed.

(** While everything still to read fits under the bound, the loop only
    extends the open chunk. *)
Lemma chunk_loop_fits (max_chars : Z) (sections chunks : list str) (cur : str) :
  (sections <> [] -> len cur + len (join para_sep sections) < max_chars)%Z ->
  chunk_loop max_chars sections chunks cur = (chunks, cur ++ terminated sections).
Proof.
  revert cur; induction sections as [|sec rest IH]; intros cur H.
  - simpl. unfold terminated. simpl. now rewrite app_nil_r.
  - specialize (H ltac:(discriminate)).
    assert (Hle : (len cur + len sec < max_chars)%Z
                  /\ (rest <> [] ->
                      len (cur ++ sec ++ para_sep) + len (join para_sep rest)
                      < max_chars)%Z).
    { destruct rest as [|sec' rest].
      - split; [exact H | congruence].
      - rewrite join_cons in H by discriminate.
        unfold len in *. rewrite !length_app in *. split; [lia | intros _; lia]. }
    destruct Hle as [Hlt Hrest].
    simpl. apply Z.ltb_lt in Hlt. rewrite Hlt.
    rewrite IH by exact Hrest.
    unfold terminated. simpl. now rewrite <- !app_assoc.
Qed.

Lemma para_sep_nonnil : para_sep <> [].
Proof. discriminate. Qed.

(** C5. For every text and every bound, the chunks of [chunk_text] are at
    least one and, put end to end in order, spell the text followed by one
    paragraph separator: nothing of the text is dropped or repeated. *)
Theorem chunk_text_reconstructs (text : str) (max_chars : Z) :
  List.concat (chunk_text text max_chars) = text ++ para_sep
  /\ chunk_text text max_chars <> [].
Proof.
  unfold chunk_text.
  pose proof (chunk_loop_concat max_chars (split para_sep text) [] []) as Hc.
  pose proof (@chunk_loop_open max_chars (split para_sep text) [] []
                (or_introl (split_go_nonnil _ _ _ _))) as Ho.
  destruct (chunk_loop max_chars (split para_sep text) [] []) as [chunks cur].
  simpl in Hc, Ho.
  rewrite terminated_join in Hc by apply split_go_nonnil.
  rewrite join_split in Hc by apply para_sep_nonnil.
  split.
  - now rewrite concat_flush.
  - destruct cur as [|c cur]; [congruence|]. simpl.
    intros E. apply app_eq_nil in E as [_ E]. discriminate.
Qed.

(** C6. A text shorter than the bound comes back as exactly one chunk:
    the text followed by one paragraph separator. *)
Theorem chunk_text_short (text : str) (max_chars : Z) :
  (len text < max_chars)%Z ->
  chunk_text text max_chars = [text ++ para_sep].
Proof.
  intros Hlt. unfold chunk_text.
  rewrite chunk_loop_fits.
  - rewrite terminated_join by apply split_go_nonnil.
    rewrite join_split by apply para_sep_nonnil.
    simpl. destruct (text ++ para_sep) eqn:E; [|reflexivity].
    apply app_eq_nil in E as [_ E]. discriminate.
  - intros _. rewrite join_split by apply para_sep_nonnil. simpl. exact Hlt.
Qed.

(** Two paragraphs under the default bound. *)
Lemma chunk_text_short_witness :
  let text := lit "PAN AAUFM6247N" ++ para_sep ++ lit "Mr. Agarwal" in
  (len text < default_max_chars)%Z
  /\ chunk_text text default_max_chars = [text ++ para_sep].
Proof.
  split; [reflexivity | apply chunk_text_short; reflexivity].
Defined.

End ChunkerFacts.

(** ** ModelSelector *)

Section ModelsFacts.

Import Models.

Lemma str_eqb_eq (a b : str) : PyStr.eqb a b = true <-> a = b.
Proof.
  unfold PyStr.eqb. destruct (list_eq_dec ascii_dec a b); split; congruence.
Qed.

Lemma str_eqb_neq (a b : str) : PyStr.eqb a b = false <-> a <> b.
Proof.
  unfold PyStr.eqb. destruct (list_eq_dec ascii_dec a b); split; congruence.
Qed.

Lemma in_list_In (x : str) (l : list str) : in_list x l = true <-> In x l.
Proof.
  unfold in_list. rewrite existsb_exists. split.
  - intros [y [Hy E]]. apply str_eqb_eq in E. now subst.
  - intros H. exists x. split; [exact H | now apply str_eqb_eq].
Qed.

Lemma in_list_not_In (x : str) (l : list str) : in_list x l = false <-> ~ In x l.
Proof.
  rewrite <- in_list_In. destruct (in_list x l); split; congruence.
Qed.

(** The inner loop adds what the last loop would add of the matching
    names. *)
Lemma add_matching_filter (preferred : str) (available sorted : list str) :
  add_matching preferred available sorted
  = add_remaining (filter (contains preferred) available) sorted.
Proof.
  revert sorted; induction available as [|a rest IH]; intros sorted; simpl.
  - reflexivity.
  - rewrite IH. destruct (contains preferred a); reflexivity.
Qed.

Lemma add_remaining_app (l1 l2 sorted : list str) :
  add_remaining (l1 ++ l2) sorted = add_remaining l2 (add_remaining l1 sorted).
Proof.
  revert sorted; induction l1 as [|a l1 IH]; intros sorted; simpl.
  - reflexivity.
  - apply IH.
Qed.

Lemma add_preferred_visits (prefs available sorted : list str) :
  add_preferred prefs available sorted
  = add_remaining (visits prefs available) sorted.
Proof.
  revert sorted; induction prefs as [|p prefs IH]; intros sorted; simpl.
  - reflexivity.
  - rewrite IH, add_matching_filter, add_remaining_app. reflexivity.
Qed.

Lemma sort_models_visits (catalog : list Model) :
  sort_models catalog
  = add_remaining
      (visits preferred_order (available_of catalog) ++ available_of catalog) [].
Proof.
  unfold sort_models. now rewrite add_preferred_visits, add_remaining_app.
Qed.

Lemma add_remaining_In (l sorted : list str) (x : str) :
  In x (add_remaining l sorted) <-> In x sorted \/ In x l.
Proof.
  revert sorted; induction l as [|a l IH]; intros sorted; simpl.
  - tauto.
  - rewrite IH. destruct (in_list a sorted) eqn:E; simpl.
    + apply in_list_In in E. split; [tauto|].
      intros [H|[H|H]]; subst; tauto.
    + rewrite in_app_iff. simpl. tauto.
Qed.

Lemma add_remaining_NoDup (l sorted : list str) :
  NoDup sorted -> NoDup (add_remaining l sorted).
Proof.
  revert sorted; induction l as [|a l IH]; intros sorted H; simpl.
  - exact H.
  - apply IH. destruct (in_list a sorted) eqn:E; simpl; [exact H|].
    apply in_list_not_In in E.
    apply NoDup_app; [exact H | repeat constructor; intros [] | ].
    intros x Hx [<-|[]]. contradiction.
Qed.

Lemma index_of_app (x : str) (l1 l2 : list str) :
  index_of x (l1 ++ l2)
  = if in_list x l1 then index_of x l1 else List.length l1 + index_of x l2.
Proof.
  induction l1 as [|a l1 IH]; simpl; [reflexivity|].
  destruct (PyStr.eqb x a) eqn:E; simpl; [reflexivity|].
  rewrite IH. destruct (in_list x l1); reflexivity.
Qed.

Lemma index_of_lt (x : str) (l : list str) :
  In x l -> index_of x l < List.length l.
Proof.
  induction l as [|a l IH]; simpl; [tauto|].
  intros [->|H].
  - assert (E : PyStr.eqb x x = true) by now apply str_eqb_eq.
    rewrite E. lia.
  - destruct (PyStr.eqb x a); [lia|]. specialize (IH H). lia.
Qed.

(** The last loop keeps the order of first occurrences. *)
Lemma add_remaining_before (l sorted : list str) (x y : str) :
  before (add_remaining l sorted) x y -> before (sorted ++ l) x y.
Proof.
  unfold before.
  revert sorted; induction l as [|a l IH]; intros sorted; simpl.
  - now rewrite app_nil_r.
  - intros H. apply IH in H.
    destruct (in_list a sorted) eqn:E; simpl in H.
    + rewrite !index_of_app in *. simpl.
      apply in_list_In in E.
      destruct (in_list x sorted) eqn:Ex, (in_list y sorted) eqn:Ey.
      * exact H.
      * apply in_list_In in Ex. apply index_of_lt in Ex.
        destruct (PyStr.eqb y a); lia.
      * apply in_list_In in Ey. apply index_of_lt in Ey. lia.
      * apply in_list_not_In in Ex. apply in_list_not_In in Ey.
        assert (Hx : PyStr.eqb x a = false) by (apply str_eqb_neq; congruence).
        assert (Hy : PyStr.eqb y a = false) by (apply str_eqb_neq; congruence).
        rewrite Hx, Hy. lia.
    + now rewrite <- app_assoc in H.
Qed.

Lemma filter_before (f : str -> bool) (l : list str) (x y : str) :
  f x = true -> f y = true ->
  before (filter f l) x y -> before l x y.
Proof.
  unfold before. intros Hx Hy.
  induction l as [|a l IH]; simpl; [lia|].
  destruct (f a) eqn:Ha; simpl.
  - destruct (PyStr.eqb x a), (PyStr.eqb y a); lia.
  - assert (Ex : PyStr.eqb x a = false) by (apply str_eqb_neq; congruence).
    assert (Ey : PyStr.eqb y a = false) by (apply str_eqb_neq; congruence).
    rewrite Ex, Ey. lia.
Qed.

(** The order of the visits is the order of the ranks, and within a rank
    the order of the catalog. *)
Lemma visits_before (prefs available : list str) (x y : str) :
  In x available -> In y available ->
  before (visits prefs available ++ available) x y ->
  rank_in prefs x < rank_in prefs y
  \/ (rank_in prefs x = rank_in prefs y /\ before available x y).
Proof.
  intros Hx Hy. unfold visits.
  induction prefs as [|p prefs IH]; simpl.
  - intros H. right. split; [reflexivity | exact H].
  - unfold before in *. rewrite <- app_assoc.
    rewrite (index_of_app x (filter (contains p) available)).
    rewrite (index_of_app y (filter (contains p) available)).
    destruct (contains p x) eqn:Cx, (contains p y) eqn:Cy.
    + assert (Fx : in_list x (filter (contains p) available) = true)
        by (apply in_list_In, filter_In; auto).
      assert (Fy : in_list y (filter (contains p) available) = true)
        by (apply in_list_In, filter_In; auto).
      rewrite Fx, Fy. intros H. right. split; [reflexivity|].
      now apply (filter_before (contains p)).
    + intros _. left. lia.
    + assert (Fy : in_list y (filter (contains p) available) = true)
        by (apply in_list_In, filter_In; auto).
      assert (Fx : in_list x (filter (contains p) available) = false).
      { apply in_list_not_In. rewrite filter_In. intros [_ E]. congruence. }
      rewrite Fx, Fy. intros H. exfalso.
      apply in_list_In, index_of_lt in Fy. lia.
    + assert (Fx : in_list x (filter (contains p) available) = false).
      { apply in_list_not_In. rewrite filter_In. intros [_ E]. congruence. }
      assert (Fy : in_list y (filter (contains p) available) = false).
      { apply in_list_not_In. rewrite filter_In. intros [_ E]. congruence. }
      rewrite Fx, Fy. intros H.
      destruct IH as [IH|[IH1 IH2]]; [lia | left; lia | right; split; [lia|exact IH2]].
Qed.

Lemma visits_incl (prefs available : list str) (x : str) :
  In x (visits prefs available) -> In x available.
Proof.
  unfold visits. rewrite in_flat_map. intros [p [_ H]].
  now apply filter_In in H.
Qed.

Lemma available_of_In (catalog : list Model) (x : str) :
  In x (available_of catalog) <->
  exists model, In model catalog /\ name model = x /\ generates model.
Proof.
  unfold generates.
  induction catalog as [|m catalog IH].
  - simpl. split; [tauto | intros [? [[] _]]].
  - cbn [available_of].
    destruct (in_list (lit "generateContent") (supported_generation_methods m)) eqn:E.
    + split.
      * intros [H|H]; [exists m; simpl; tauto|].
        apply IH in H as [m' H]. exists m'. simpl. tauto.
      * intros [m' [[<-|H1] [H2 H3]]]; [now left|].
        right. apply IH. exists m'. tauto.
    + rewrite IH. split.
      * intros [m' H]. exists m'. simpl. tauto.
      * intros [m' [[<-|H1] [H2 H3]]]; [congruence | exists m'; tauto].
Qed.

Lemma sort_models_In (catalog : list Model) (x : str) :
  In x (sort_models catalog) <-> In x (available_of catalog).
Proof.
  rewrite sort_models_visits, add_remaining_In, in_app_iff.
  split; [|tauto].
  intros [[]|[H|H]]; [now apply visits_incl in H | exact H].
Qed.

Lemma sort_models_NoDup (catalog : list Model) : NoDup (sort_models catalog).
Proof.
  rewrite sort_models_visits. apply add_remaining_NoDup. constructor.
Qed.

Lemma sort_models_before (catalog : list Model) (x y : str) :
  In x (sort_models catalog) -> In y (sort_models catalog) ->
  before (sort_models catalog) x y ->
  rank x < rank y
  \/ (rank x = rank y /\ before (available_of catalog) x y).
Proof.
  intros Hx Hy H.
  apply sort_models_In in Hx, Hy.
  rewrite sort_models_visits in H.
  apply add_remaining_before in H. rewrite app_nil_l in H.
  now apply visits_before.
Qed.

End ModelsFacts.

Section ModelsClaims.

Import Models.

Lemma index_of_inj (l : list str) (x y : str) :
  In x l -> In y l -> index_of x l = index_of y l -> x = y.
Proof.
  induction l as [|a l IH]; simpl; [tauto|].
  intros Hx Hy.
  destruct (PyStr.eqb x a) eqn:Ex, (PyStr.eqb y a) eqn:Ey; intros E;
    try discriminate.
  - apply str_eqb_eq in Ex, Ey. congruence.
  - apply str_eqb_neq in Ex, Ey.
    destruct Hx as [Hx|Hx]; [congruence|].
    destruct Hy as [Hy|Hy]; [congruence|].
    apply IH; [assumption..|]. now injection E.
Qed.

Lemma rank_in_le (prefs : list str) (x : str) :
  rank_in prefs x <= List.length prefs.
Proof. induction prefs as [|p prefs IH]; simpl; [lia|]. destruct (contains p x); lia. Qed.

(** A name matches the list exactly when its rank is an index of it. *)
Lemma rank_in_match (prefs : list str) (x : str) :
  rank_in prefs x < List.length prefs <->
  exists p, In p prefs /\ contains p x = true.
Proof.
  induction prefs as [|p prefs IH]; simpl.
  - split; [lia | intros [? [[] _]]].
  - destruct (contains p x) eqn:E.
    + split; [intros _; exists p; tauto | lia].
    + split.
      * intros H. apply PeanoNat.lt_S_n, IH in H as [q [H1 H2]]. exists q. tauto.
      * intros [q [[<-|H1] H2]]; [congruence|].
        apply -> PeanoNat.Nat.succ_lt_mono. apply IH. exists q. tauto.
Qed.

Lemma sort_models_selected (catalog : list Model) :
  selected_by_preference catalog (sort_models catalog).
Proof.
  assert (Hord : forall x y,
    In x (sort_models catalog) -> In y (sort_models catalog) ->
    (before (sort_models catalog) x y <->
     rank x < rank y \/ (rank x = rank y /\ before (available_of catalog) x y))).
  { intros x y Hx Hy. split; [now apply sort_models_before|].
    intros H.
    destruct (Nat.lt_total (index_of x (sort_models catalog))
                           (index_of y (sort_models catalog))) as [L|[E|G]].
    - exact L.
    - apply index_of_inj in E; [|assumption..]. subst y.
      unfold before in H. lia.
    - apply sort_models_before in G; [|assumption..].
      unfold before in *. lia. }
  split; [|split].
  - intros x. rewrite sort_models_In. apply available_of_In.
  - intros x y Hx Hy Mx My. apply Hord; [assumption..|]. left.
    apply rank_in_match in Mx.
    assert (~ rank y < List.length preferred_order)
      by (intros L; apply My, rank_in_match, L).
    fold (rank x) in Mx. lia.
  - exact Hord.
Qed.

(** C8. Of a catalog that could be listed, [get_available_models] returns
    the names of the models that support content generation and no
    other, every name that matches the preference list before every name
    that does not, names of earlier preference entries first, and names
    of equal rank (those that match no entry among them) in the order of
    the catalog. *)
Theorem get_available_models_selected (env : Env) (api_key : str)
  (catalog : list Model) (w : World) :
  list_models env api_key = Return catalog ->
  selected_by_preference catalog (fst (get_available_models env api_key w)).
Proof.
  intros H. unfold get_available_models. rewrite H. simpl.
  apply sort_models_selected.
Qed.

(** The catalog of five models: the flash models first, then the pro
    model, then the one outside the list. *)
Lemma get_available_models_selected_witness :
  list_models (Runs.env_of Runs.catalog4 (fun _ _ _ => Raise (Exception [])))
    (lit "key") = Return Runs.catalog4
  /\ selected_by_preference Runs.catalog4
       (fst (get_available_models
               (Runs.env_of Runs.catalog4 (fun _ _ _ => Raise (Exception [])))
               (lit "key") world0)).
Proof.
  split; [reflexivity | apply get_available_models_selected; reflexivity].
Defined.

(** C10. The list [get_available_models] returns holds no name twice,
    whatever the catalog, and also when a name matches several entries of
    the preference list. *)
Theorem get_available_models_NoDup (env : Env) (api_key : str) (w : World) :
  NoDup (fst (get_available_models env api_key w)).
Proof.
  unfold get_available_models.
  destruct (list_models env api_key) as [catalog|e]; simpl.
  - apply sort_models_NoDup.
  - constructor.
Qed.

(** On the catalog of five models. *)
Example get_available_models_catalog4 :
  fst (get_available_models
         (Runs.env_of Runs.catalog4 (fun _ _ _ => Raise (Exception [])))
         (lit "key") world0)
  = [ lit "models/gemini-2.0-flash-lite"; lit "models/gemini-2.0-flash";
      lit "models/gemini-2.5-pro"; lit "models/gemma-3" ].
Proof. vm_compute. reflexivity. Qed.

End ModelsClaims.

(** ** ExtractionClient: the retry loop *)

Section ClientFacts.

Import Client.

Variable json_loads : str -> outcome json.
Variable env : Env.

(** Unfolds the sequencing of the world computations. *)
Ltac run := unfold bind, ret, when; cbn [fst snd].

(** What one attempt hands its handlers or returns: records only when
    the call was answered and the answer decoded. *)
Lemma try_attempt_result (model chunk : str) (chunk_num : Z) (w : World) :
  match fst (try_attempt json_loads env model chunk chunk_num w) with
  | Raise _ => True
  | Return l => l = [] \/ answered json_loads env (calls w) model chunk l
  end.
Proof.
  unfold try_attempt, call_generate. run.
  destruct (generate_content env (calls w) model chunk) as [response|e] eqn:G;
    [|exact I].
  destruct (stopped response) eqn:S.
  - run. now left.
  - destruct (text response) as [response_text|e] eqn:T; [|exact I].
    destruct (loads_response_text json_loads response_text) as [parsed|e] eqn:L;
      [|exact I].
    run. right. exists response, response_text, parsed. auto.
Qed.

(** The loop always returns, and what it returns is empty unless an
    attempt was answered. *)
Lemma attempts_total (n : nat) (attempt : Z) (model chunk : str)
  (chunk_num max_retries : Z) (w : World) :
  exists l,
    fst (attempts json_loads env n attempt model chunk chunk_num max_retries w)
    = Return l
    /\ (l = [] \/ exists k, answered json_loads env k model chunk l).
Proof.
  revert attempt w; induction n as [|n IH]; intros attempt w.
  - exists []. split; [reflexivity | now left].
  - cbn [attempts]. unfold bind at 1. cbn [fst snd].
    pose proof (try_attempt_result model chunk chunk_num w) as Hr.
    destruct (fst (try_attempt json_loads env model chunk chunk_num w))
      as [l|[msg|msg]].
    + exists l. split; [reflexivity|].
      destruct Hr as [Hr|Hr]; [now left | right; now exists (calls w)].
    + run. apply IH.
    + destruct (is_rate_limit msg).
      * run. destruct (attempt <? max_retries - 1)%Z.
        -- run. apply IH.
        -- run. exists []. split; [reflexivity | now left].
      * run. exists []. split; [reflexivity | now left].
Qed.

Lemma try_attempt_raised (model chunk : str) (chunk_num : Z) (w : World) (e : exn) :
  generate_content env (calls w) model chunk = Raise e ->
  try_attempt json_loads env model chunk chunk_num w
  = (Raise e, {| calls := S (calls w); slept := slept w; console := console w;
                 csv_files := csv_files w |}).
Proof.
  intros G. unfold try_attempt, call_generate. run. now rewrite G.
Qed.

(** One iteration of the loop. *)
Lemma attempts_S (n : nat) (attempt : Z) (model chunk : str)
  (chunk_num max_retries : Z) (w : World) :
  attempts json_loads env (S n) attempt model chunk chunk_num max_retries w
  = let r := try_attempt json_loads env model chunk chunk_num w in
    match fst r with
    | Return records => (Return records, snd r)
    | Raise (JSONDecodeError msg) =>
        attempts json_loads env n (attempt + 1) model chunk chunk_num max_retries
          (snd (when (attempt <? max_retries - 1)%Z (sleep (2 ^ attempt))
                  (snd (print 172 [AInt chunk_num; AInt (attempt + 1); AStr msg]
                          (snd r)))))
    | Raise (Exception error_msg) =>
        if is_rate_limit error_msg then
          let w1 := snd (print 179 [AInt chunk_num; AInt (attempt + 1)] (snd r)) in
          if (attempt <? max_retries - 1)%Z then
            attempts json_loads env n (attempt + 1) model chunk chunk_num
              max_retries
              (snd (sleep (2 ^ (attempt + 4))
                      (snd (print 182 [AInt (2 ^ (attempt + 4))] w1))))
          else (Return [], snd (print 186 [AInt chunk_num] w1))
        else (Return [], snd (print 189 [AInt chunk_num; AStr error_msg] (snd r)))
    end.
Proof.
  cbn [attempts]. unfold bind. cbn zeta.
  destruct (fst (try_attempt json_loads env model chunk chunk_num w))
    as [l|[msg|msg]]; try reflexivity.
  destruct (is_rate_limit msg); [|reflexivity].
  destruct (attempt <? max_retries - 1)%Z; reflexivity.
Qed.

(** When every call is rate-limited the loop waits after each attempt
    but the last and then gives up with the empty list. *)
Lemma attempts_rate_limited (n : nat) (attempt : Z) (model chunk : str)
  (chunk_num max_retries : Z) (w : World) :
  Z.of_nat (S n) = (max_retries - attempt)%Z ->
  (forall k, calls w <= k < calls w + S n ->
     exists msg, generate_content env k model chunk = Raise (Exception msg)
                 /\ is_rate_limit msg = true) ->
  exists w',
    attempts json_loads env (S n) attempt model chunk chunk_num max_retries w
    = (Return [], w')
    /\ slept w' = rev (waits_from attempt n) ++ slept w.
Proof.
  revert attempt w; induction n as [|n IH]; intros attempt w Hn Hall;
    destruct (Hall (calls w) ltac:(lia)) as [msg [G R]];
    rewrite attempts_S;
    rewrite (try_attempt_raised model chunk chunk_num w G); cbn [fst snd];
    cbv zeta; rewrite R.
  - assert (E : (attempt <? max_retries - 1)%Z = false) by (apply Z.ltb_ge; lia).
    rewrite E. eexists. split; reflexivity.
  - assert (E : (attempt <? max_retries - 1)%Z = true) by (apply Z.ltb_lt; lia).
    rewrite E.
    match goal with |- context [attempts _ _ _ _ _ _ _ _ ?w0] =>
      destruct (IH (attempt + 1)%Z w0) as [w' [IH1 IH2]] end.
    + lia.
    + cbn [calls print sleep snd]. intros k Hk. apply Hall. lia.
    + exists w'. split; [exact IH1|].
      rewrite IH2. cbn [slept waits_from rev print sleep snd].
      now rewrite <- app_assoc.
Qed.

(** An error that is no rate limit ends the loop at once. *)
Lemma attempts_other_error (n : nat) (attempt : Z) (model chunk : str)
  (chunk_num max_retries : Z) (w : World) (msg : str) :
  generate_content env (calls w) model chunk = Raise (Exception msg) ->
  is_rate_limit msg = false ->
  fst (attempts json_loads env (S n) attempt model chunk chunk_num max_retries w)
  = Return [].
Proof.
  intros G R. rewrite attempts_S.
  rewrite (try_attempt_raised model chunk chunk_num w G). cbn [fst snd].
  rewrite R. reflexivity.
Qed.


End ClientFacts.

(** C9. Whatever the model, the chunk, the number of retries and the
    answers of the generation calls (exceptions, truncated or filtered
    completions, texts that do not decode), [extract_entities_from_chunk]
    returns a list and raises nothing; the list is empty unless one of
    the calls was answered by a completion that ended normally and whose
    text decoded, so every failure path, the exhausted retries of a text
    that never decodes among them, returns the empty list. *)
Theorem extract_entities_from_chunk_total
  (json_loads : str -> outcome json) (env : Env) (model chunk : str)
  (chunk_num total_chunks max_retries : Z) (w : World) :
  exists l,
    fst (Client.extract_entities_from_chunk json_loads env model chunk
           chunk_num total_chunks max_retries w) = Return l
    /\ (l = [] \/ exists k, Client.answered json_loads env k model chunk l).
Proof.
  unfold Client.extract_entities_from_chunk, bind. cbn [fst snd].
  apply attempts_total.
Qed.

Section ClientClaims.

Import Client.

(** C3, the claim as stated fails: after three rate-limit errors the
    caller gets the same value as after one error of another kind. *)
Lemma rate_limit_exhaustion_not_distinct :
  ~ (fst (extract_entities_from_chunk JsonText.loads
            (Runs.env_raising "429 Resource has been exhausted (e.g. check quota).")
            (lit "models/gemini-2.0-flash") (lit "PAN AAUFM6247N") 1 1
            default_max_retries world0)
     <> fst (extract_entities_from_chunk JsonText.loads
               (Runs.env_raising "500 Internal error")
               (lit "models/gemini-2.0-flash") (lit "PAN AAUFM6247N") 1 1
               default_max_retries world0)).
Proof. intros H. apply H. vm_compute. reflexivity. Qed.

(** C3, amended. When every attempt on a chunk raises a rate-limit or
    quota error, [extract_entities_from_chunk] waits [2 ** (attempt + 4)]
    seconds after each attempt but the last (16 and 32 seconds with the
    default of three attempts) and then returns the empty list, which is
    also what it returns for an error of any other kind: the value
    returned does not tell the two apart. *)
Theorem rate_limit_exhaustion_returns_empty
  (json_loads : str -> outcome json) (env : Env) (model chunk : str)
  (chunk_num total_chunks max_retries : Z) (w : World) :
  (0 < max_retries)%Z ->
  (forall k, calls w <= k < calls w + Z.to_nat max_retries ->
     exists msg, generate_content env k model chunk = Raise (Exception msg)
                 /\ is_rate_limit msg = true) ->
  fst (extract_entities_from_chunk json_loads env model chunk chunk_num
         total_chunks max_retries w) = Return []
  /\ slept (snd (extract_entities_from_chunk json_loads env model chunk
                   chunk_num total_chunks max_retries w))
     = rev (backoffs max_retries) ++ slept w
  /\ (forall env' w' msg,
        generate_content env' (calls w') model chunk = Raise (Exception msg) ->
        is_rate_limit msg = false ->
        fst (extract_entities_from_chunk json_loads env' model chunk chunk_num
               total_chunks max_retries w') = Return []).
Proof.
  intros Hpos Hall.
  unfold extract_entities_from_chunk, bind. cbn [fst snd].
  destruct (Z.to_nat max_retries) as [|n] eqn:En; [lia|].
  split; [|split].
  - destruct (@attempts_rate_limited json_loads env n 0 model chunk chunk_num
                max_retries (snd (print 133 [AInt chunk_num; AInt total_chunks] w)))
      as [w' [E _]]; [lia | exact Hall |].
    now rewrite E.
  - destruct (@attempts_rate_limited json_loads env n 0 model chunk chunk_num
                max_retries (snd (print 133 [AInt chunk_num; AInt total_chunks] w)))
      as [w' [E Hs]]; [lia | exact Hall |].
    rewrite E. cbn [snd]. rewrite Hs. unfold backoffs. rewrite En.
    replace (S n - 1) with n by lia. reflexivity.
  - intros env' w' msg G R.
    now apply attempts_other_error with (msg := msg).
Qed.

(** Three attempts that all hit the quota: waits of 16 and 32 seconds. *)
Lemma rate_limit_exhaustion_returns_empty_witness :
  let env := Runs.env_raising "429 Resource has been exhausted (e.g. check quota)." in
  let run := extract_entities_from_chunk JsonText.loads env
               (lit "models/gemini-2.0-flash") (lit "PAN AAUFM6247N") 1 1 3 world0 in
  (0 < 3)%Z
  /\ fst run = Return []
  /\ slept (snd run) = [32; 16]%Z.
Proof.
  intros env run.
  destruct (@rate_limit_exhaustion_returns_empty JsonText.loads env
              (lit "models/gemini-2.0-flash") (lit "PAN AAUFM6247N") 1 1 3 world0)
    as [H1 [H2 _]].
  - lia.
  - intros k _. eexists. split; reflexivity.
  - split; [lia | split; [exact H1 | exact H2]].
Defined.

(** The waits of three and of four attempts. *)
Example backoffs_default : backoffs default_max_retries = [16; 32]%Z.
Proof. reflexivity. Qed.

Example backoffs_four : backoffs 4 = [16; 32; 64]%Z.
Proof. reflexivity. Qed.




End ClientClaims.

(** ** Stripping *)

Section StripFacts.

Lemma lstrip_blank (a s : str) : blank a = true -> lstrip (a ++ s) = lstrip s.
Proof.
  induction a as [|c a IH]; simpl; [reflexivity|].
  intros H. apply andb_true_iff in H as [Hc Ha]. rewrite Hc. now apply IH.
Qed.

Lemma lstrip_fixed (s : str) :
  match s with [] => True | c :: _ => isspace c = false end -> lstrip s = s.
Proof. destruct s as [|c s]; simpl; [reflexivity|]. now intros ->. Qed.

Lemma lstrip_split (s : str) : exists a, s = a ++ lstrip s /\ blank a = true.
Proof.
  induction s as [|c s [a [E B]]]; simpl.
  - now exists [].
  - destruct (isspace c) eqn:Hc.
    + exists (c :: a). simpl. rewrite Hc, B. now rewrite <- E.
    + now exists [].
Qed.

Lemma lstrip_head (s : str) :
  match lstrip s with [] => True | c :: _ => isspace c = false end.
Proof.
  induction s as [|c s IH]; simpl; [exact I|].
  destruct (isspace c) eqn:Hc; [exact IH | exact Hc].
Qed.

Lemma blank_rev (a : str) : blank (rev a) = blank a.
Proof.
  unfold blank. induction a as [|c a IH]; simpl; [reflexivity|].
  rewrite forallb_app, IH. simpl. rewrite andb_true_r. apply andb_comm.
Qed.

Lemma blank_app (a b : str) : blank (a ++ b) = blank a && blank b.
Proof. apply forallb_app. Qed.

(** Stripping takes the blanks off both ends of a trimmed core. *)
Lemma strip_sandwich (a s b : str) :
  blank a = true -> blank b = true -> trimmed s -> strip (a ++ s ++ b) = s.
Proof.
  intros Ha Hb [Hs Hr]. unfold strip, rstrip.
  rewrite lstrip_blank by exact Ha.
  destruct s as [|c s].
  - simpl. rewrite <- (app_nil_r b), lstrip_blank by exact Hb.
    reflexivity.
  - rewrite (lstrip_fixed ((c :: s) ++ b)) by exact Hs.
    rewrite rev_app_distr, lstrip_blank by now rewrite blank_rev.
    rewrite (lstrip_fixed (rev (c :: s))) by exact Hr. apply rev_involutive.
Qed.

(** Every text is a trimmed core, its strip, between two blank ends. *)
Lemma strip_split (s : str) :
  exists a b, s = a ++ strip s ++ b /\ blank a = true /\ blank b = true
              /\ trimmed (strip s).
Proof.
  destruct (lstrip_split s) as [a [Ea Ba]].
  destruct (lstrip_split (rev (lstrip s))) as [b [Eb Bb]].
  exists a, (rev b).
  assert (E : lstrip s = strip s ++ rev b).
  { unfold strip, rstrip. rewrite <- rev_app_distr, <- Eb.
    now rewrite rev_involutive. }
  split; [now rewrite <- E|].
  split; [exact Ba|]. split; [now rewrite blank_rev|].
  split.
  - pose proof (lstrip_head s) as H. rewrite E in H.
    destruct (strip s); [exact I | exact H].
  - unfold strip, rstrip. rewrite rev_involutive. apply lstrip_head.
Qed.

End StripFacts.

(** ** Occurrences of the fence marker *)

Section FenceFacts.

Import Client.

Lemma contains_false_suffix (p s u v : str) :
  contains p s = false -> s = u ++ v -> startswith p v = false.
Proof.
  revert s; induction u as [|c u IH]; intros s H E; subst s.
  - simpl in H. destruct v; simpl in H; now apply orb_false_iff in H.
  - simpl in H. apply orb_false_iff in H as [_ H]. now apply (IH (u ++ v)).
Qed.

Lemma contains_suffix (p u v : str) :
  contains p (u ++ v) = false -> contains p v = false.
Proof.
  induction u as [|c u IH]; simpl; [auto|].
  intros H. apply orb_false_iff in H as [_ H]. auto.
Qed.

Lemma startswith_prefix (p s t : str) :
  startswith p s = true -> startswith p (s ++ t) = true.
Proof.
  revert s; induction p as [|a p IH]; intros s; [reflexivity|].
  destruct s as [|b s]; simpl; [discriminate|].
  intros H. apply andb_true_iff in H as [H1 H2]. rewrite H1. now apply IH.
Qed.

Lemma contains_prefix (p u v : str) :
  contains p (u ++ v) = false -> contains p u = false.
Proof.
  induction u as [|c u IH].
  - intros H. simpl. destruct (startswith p []) eqn:E; [|reflexivity].
    apply (startswith_prefix _ _ v) in E. simpl in E.
    destruct v; simpl in H; apply orb_false_iff in H as [H _]; congruence.
  - cbn [contains app]. intros H. apply orb_false_iff in H as [H1 H2].
    rewrite (IH H2), orb_false_r.
    destruct (startswith p (c :: u)) eqn:E; [|reflexivity].
    apply (startswith_prefix _ _ v) in E. simpl in E. congruence.
Qed.

Lemma startswith_length (p s : str) :
  startswith p s = true -> List.length p <= List.length s.
Proof.
  intros H. destruct (startswith_inv _ _ H) as [t ->].
  rewrite length_app. lia.
Qed.

(** A text that starts with the marker and is a tail of it is the
    marker. *)
Lemma startswith_tail (p u v : str) :
  p = u ++ v -> startswith p v = true -> v = p.
Proof.
  intros E H. apply startswith_length in H.
  assert (L : List.length p = List.length u + List.length v)
    by (rewrite E at 1; apply length_app).
  destruct u; [now subst | simpl in L; lia].
Qed.

(** A body without the marker, a line break and the marker: the text
    does not start with the marker. *)
Lemma body_lf_fence_start (body : str) :
  contains fence body = false ->
  startswith fence (body ++ LF :: fence) = false.
Proof.
  intros H.
  destruct body as [|a [|b [|c body]]]; try reflexivity.
  - simpl. now rewrite andb_false_r.
  - simpl. now rewrite !andb_false_r.
  - simpl in H. apply orb_false_iff in H as [H _].
    simpl. rewrite andb_true_r in *. exact H.
Qed.

(** In such a text the marker occurs at the end only. *)
Lemma final_fence (body u v : str) :
  contains fence body = false ->
  body ++ LF :: fence = u ++ v ->
  startswith fence v = true -> v = fence.
Proof.
  revert body; induction u as [|x u IH]; intros body H E S.
  - simpl in E. subst v. now rewrite body_lf_fence_start in S.
  - destruct body as [|y body].
    + simpl in E. injection E as _ E. eapply startswith_tail; eassumption.
    + simpl in E. injection E as _ E. apply (IH body); auto.
      simpl in H. now apply orb_false_iff in H as [_ H].
Qed.

Lemma replace_go_skip (old new a s : str) :
  replace_go old new (a ++ s) (List.length a) = replace_go old new s 0.
Proof. induction a as [|c a IH]; simpl; [reflexivity | exact IH]. Qed.

(** Without an occurrence nothing is replaced. *)
Lemma replace_none (old new s : str) :
  (forall u v, s = u ++ v -> startswith old v = false) ->
  replace old new s = s.
Proof.
  unfold replace. induction s as [|c s IH]; intros H; simpl; [reflexivity|].
  rewrite (H [] (c :: s) eq_refl). f_equal. apply IH.
  intros u v E. apply (H (c :: u) v). now rewrite E.
Qed.

(** A single occurrence at the end is cut off. *)
Lemma replace_final (old s : str) :
  old <> [] ->
  (forall u v, s ++ old = u ++ v -> startswith old v = true -> v = old) ->
  replace old [] (s ++ old) = s.
Proof.
  intros Hold. unfold replace.
  induction s as [|c s IH]; intros H.
  - destruct old as [|a old]; [congruence|].
    pose proof (startswith_app (a :: old) []) as Hs. rewrite app_nil_r in Hs.
    cbn [app replace_go]. rewrite Hs.
    replace (List.length (a :: old) - 1) with (List.length old)
      by (cbn [List.length]; lia).
    pose proof (replace_go_skip (a :: old) [] old []) as Hk.
    rewrite app_nil_r in Hk. rewrite Hk. reflexivity.
  - cbn [app replace_go].
    destruct (startswith old (c :: s ++ old)) eqn:E.
    + apply (H [] (c :: s ++ old) eq_refl) in E.
      apply (f_equal (@List.length ascii)) in E.
      cbn [List.length] in E. rewrite length_app in E. lia.
    + f_equal. apply IH. intros u v Euv. apply (H (c :: u) v).
      cbn [app]. now f_equal.
Qed.

End FenceFacts.

(** ** The matcher *)

Section RegexFacts.

Import Regex.

Lemma rmatch_lits (p s : str) (g : option str)
  (k : str -> option str -> option (option str)) :
  rmatch (lits p) s g k
  = if startswith p s then k (skipn (List.length p) s) g else None.
Proof.
  revert s; induction p as [|a p IH]; intros s; [reflexivity|].
  destruct s as [|b s]; [reflexivity|].
  cbn [lits rmatch startswith]. destruct (Ascii.eqb a b); [|reflexivity].
  rewrite IH. reflexivity.
Qed.

(** A greedy run of blanks before something that cannot start with a
    blank ends where the blanks end. *)
Lemma star_greedy_lstrip {R} (k : str -> option R) (s : str) :
  (forall c t, isspace c = true -> k (c :: t) = None) ->
  star_greedy isspace s k = k (lstrip s).
Proof.
  intros Hk. induction s as [|c s IH]; [reflexivity|].
  cbn [star_greedy lstrip]. destruct (isspace c) eqn:Hc; [|reflexivity].
  rewrite IH. destruct (k (lstrip s)); [reflexivity|]. now apply Hk.
Qed.

Lemma star_lazy_none {R} (p : ascii -> bool) (k : str -> option R) (s : str) :
  (forall u v, s = u ++ v -> k v = None) -> star_lazy p s k = None.
Proof.
  induction s as [|c s IH]; intros H.
  - cbn [star_lazy]. now rewrite (H [] [] eq_refl).
  - cbn [star_lazy]. rewrite (H [] (c :: s) eq_refl).
    destruct (p c); [|reflexivity].
    apply IH. intros u v E. apply (H (c :: u) v). cbn [app]. now f_equal.
Qed.

(** The lazy run stops at the first place where the rest matches. *)
Lemma star_lazy_first {R} (p : ascii -> bool) (k : str -> option R) (u v : str) :
  forallb p u = true ->
  (forall u1 u2, u = u1 ++ u2 -> u2 <> [] -> k (u2 ++ v) = None) ->
  star_lazy p (u ++ v) k = star_lazy p v k.
Proof.
  induction u as [|c u IH]; intros Hp H; [reflexivity|].
  cbn [forallb] in Hp. apply andb_true_iff in Hp as [Hc Hu].
  pose proof (H [] (c :: u) eq_refl ltac:(discriminate)) as H0.
  cbn [app star_lazy] in *. rewrite H0, Hc.
  apply IH; [exact Hu|].
  intros u1 u2 E N. apply (H (c :: u1) u2); [|exact N]. cbn [app]. now f_equal.
Qed.

Lemma search_none (r : regex) (s : str) :
  (forall u v, s = u ++ v -> match_here r v = None) -> search r s = None.
Proof.
  induction s as [|c s IH]; intros H.
  - cbn [search]. now rewrite (H [] [] eq_refl).
  - cbn [search]. rewrite (H [] (c :: s) eq_refl).
    apply IH. intros u v E. apply (H (c :: u) v). cbn [app]. now f_equal.
Qed.

End RegexFacts.

(** ** The fence pattern *)

Section PatternFacts.

Import Regex Client.

Lemma star_lazy_ext {R} (p : ascii -> bool) (k1 k2 : str -> option R) (s : str) :
  (forall t, k1 t = k2 t) -> star_lazy p s k1 = star_lazy p s k2.
Proof.
  intros H. induction s as [|c s IH]; cbn [star_lazy]; rewrite H; [reflexivity|].
  now rewrite IH.
Qed.

Lemma isspace_eqb (a c : ascii) :
  isspace a = false -> isspace c = true -> Ascii.eqb a c = false.
Proof.
  intros Ha Hc. destruct (Ascii.eqb a c) eqn:E; [|reflexivity].
  apply Ascii.eqb_eq in E. congruence.
Qed.

(** The end of the pattern, blanks and the fence, on a text [t]. *)
Lemma closing_closes (t : str) (g : option str) :
  rmatch (Cat (Star isspace) (lits fence)) t g (fun _ g' => Some g')
  = if closes t then Some g else None.
Proof.
  cbn [rmatch]. rewrite star_greedy_lstrip.
  - rewrite rmatch_lits. reflexivity.
  - intros c s Hc. rewrite rmatch_lits.
    cbn [fence lit list_ascii_of_string startswith].
    now rewrite (@isspace_eqb "`"%char c eq_refl Hc).
Qed.

(** The pattern, read as nested tests on the text. *)
Lemma match_here_fence (s : str) :
  match_here fence_pattern s
  = if startswith fence s then
      match
        (if startswith (lit "json") (skipn 3 s)
         then bracket_group (lstrip (skipn 4 (skipn 3 s))) else None)
      with
      | Some m => Some m
      | None => bracket_group (lstrip (skipn 3 s))
      end
    else None.
Proof.
  assert (G : forall t,
    star_greedy isspace t
      (fun s' =>
         rmatch
           (Cat (Group (Cat (Chr "[") (Cat (StarLazy (fun _ => true)) (Chr "]"))))
                (Cat (Star isspace) (lits fence)))
           s' None (fun _ g => Some g))
    = bracket_group (lstrip t)).
  { intros t. rewrite star_greedy_lstrip.
    - destruct (lstrip t) as [|c v]; [reflexivity|].
      cbn [rmatch bracket_group]. destruct (Ascii.eqb "[" c); [|reflexivity].
      apply star_lazy_ext. intros u. destruct u as [|d u']; [reflexivity|].
      cbn [close_bracket]. destruct (Ascii.eqb "]" d); [|reflexivity].
      cbn [andb]. apply (closing_closes u'
        (Some (firstn (List.length (c :: v) - List.length u') (c :: v)))).
    - intros c u Hc. cbn [rmatch].
      now rewrite (@isspace_eqb "["%char c eq_refl Hc). }
  unfold match_here, fence_pattern. cbn [rmatch].
  rewrite rmatch_lits. destruct (startswith fence s); [|reflexivity].
  rewrite rmatch_lits. change (List.length fence) with 3.
  change (List.length (lit "json")) with 4.
  rewrite !G. reflexivity.
Qed.

End PatternFacts.

(** ** A fenced body *)

Section FencedFacts.

Import Regex Client.

(** The last character that is no blank is the same however the text is
    cut. *)
Lemma last_nonblank (a1 a2 b1 b2 : str) (x y : ascii) :
  a1 ++ x :: b1 = a2 ++ y :: b2 ->
  isspace x = false -> isspace y = false ->
  blank b1 = true -> blank b2 = true -> x = y.
Proof.
  intros E Hx Hy H1 H2.
  apply (f_equal (fun s => lstrip (rev s))) in E.
  rewrite !rev_app_distr in E. cbn [rev] in E. rewrite <- !app_assoc in E.
  rewrite (lstrip_blank (rev b1)) in E by now rewrite blank_rev.
  rewrite (lstrip_blank (rev b2)) in E by now rewrite blank_rev.
  cbn [app lstrip] in E. rewrite Hx, Hy in E. now injection E.
Qed.

Lemma blank_closes (a : str) : blank a = true -> closes (a ++ fence) = true.
Proof. intros H. unfold closes. now rewrite lstrip_blank. Qed.

(** Where the pattern can close group 1 in a body without the fence,
    followed by a line break and the fence: at a bracket with only
    blanks after it in the body. *)
Lemma close_bracket_inv (body u t s0 : str) (m : option str) :
  contains fence body = false ->
  body ++ LF :: fence = u ++ t ->
  close_bracket s0 t = Some m ->
  exists a, body = u ++ "]"%char :: a /\ blank a = true.
Proof.
  intros Hb E Hk.
  destruct t as [|c t']; [discriminate|]. cbn [close_bracket] in Hk.
  destruct (Ascii.eqb "]" c) eqn:Ec; [|discriminate].
  apply Ascii.eqb_eq in Ec. subst c.
  destruct (closes t') eqn:Hc; [|discriminate]. unfold closes in Hc.
  destruct (lstrip_split t') as [a [Ea Ba]].
  assert (F : lstrip t' = fence).
  { apply (@final_fence body (u ++ "]"%char :: a) (lstrip t') Hb); [|exact Hc].
    rewrite E, Ea at 1. now rewrite <- app_assoc. }
  rewrite F in Ea. subst t'.
  destruct (exists_last (l := a)) as [a' [x Ex]].
  { intros ->. cbn [app] in E.
    change (body ++ [LF] ++ fence = u ++ ["]"%char] ++ fence) in E.
    rewrite !app_assoc in E. apply app_inv_tail in E.
    apply app_inj_tail in E as [_ E]. discriminate. }
  subst a. exists a'.
  change (body ++ [LF] ++ fence = u ++ ("]"%char :: a' ++ [x]) ++ fence) in E.
  rewrite !app_assoc in E. apply app_inv_tail in E.
  change ("]"%char :: a' ++ [x]) with (("]"%char :: a') ++ [x]) in E.
  rewrite app_assoc in E. apply app_inj_tail in E as [E _].
  split; [exact E|].
  rewrite blank_app in Ba. now apply andb_true_iff in Ba as [Ba _].
Qed.

Lemma length_sub_app (a b : str) :
  firstn (List.length (a ++ b) - List.length b) (a ++ b) = a.
Proof.
  rewrite length_app, Nat.add_sub.
  rewrite firstn_app, Nat.sub_diag, firstn_all. cbn [firstn]. apply app_nil_r.
Qed.

(** A body that, after its bracket, ends in a bracket and blanks: group 1
    is the text from the one bracket to the other. *)
Lemma bracket_group_closed (inner ws : str) :
  contains fence (inner ++ "]"%char :: ws) = false ->
  blank ws = true ->
  bracket_group ("["%char :: (inner ++ "]"%char :: ws) ++ LF :: fence)
  = Some (Some ("["%char :: inner ++ ["]"%char])).
Proof.
  intros Hb Hw. cbn [bracket_group]. rewrite Ascii.eqb_refl.
  rewrite <- app_assoc. rewrite star_lazy_first.
  - cbn [app star_lazy close_bracket]. rewrite Ascii.eqb_refl.
    assert (C : closes (ws ++ LF :: fence) = true).
    { change (ws ++ LF :: fence) with (ws ++ [LF] ++ fence).
      rewrite app_assoc. apply blank_closes.
      rewrite blank_app, Hw. reflexivity. }
    rewrite C. cbn [andb]. do 2 f_equal.
    replace ("["%char :: inner ++ "]"%char :: ws ++ LF :: fence)
      with (("["%char :: inner ++ ["]"%char]) ++ (ws ++ LF :: fence))
      by (cbn [app]; now rewrite <- !app_assoc).
    apply length_sub_app.
  - now apply forallb_forall.
  - intros u1 u2 E N.
    destruct (close_bracket
      ("["%char :: inner ++ ("]"%char :: ws) ++ LF :: fence)
      (u2 ++ ("]"%char :: ws) ++ LF :: fence)) as [m|] eqn:Hk; [|reflexivity].
    exfalso.
    assert (X : exists a, inner ++ "]"%char :: ws = u1 ++ "]"%char :: a
                          /\ blank a = true).
    { eapply close_bracket_inv; [exact Hb | | exact Hk].
      rewrite E, <- !app_assoc. reflexivity. }
    destruct X as [a [Ea Ba]].
    + rewrite E, <- app_assoc in Ea. apply app_inv_head in Ea.
      destruct u2 as [|c u2]; [congruence|].
      cbn [app] in Ea. injection Ea as _ Ea. subst a.
      rewrite blank_app in Ba. cbn in Ba.
      now rewrite andb_false_r in Ba.
Qed.

(** A body that has no such bracket: the pattern does not match. *)
Lemma bracket_group_open (rest : str) :
  contains fence rest = false ->
  (forall u a, rest = u ++ "]"%char :: a -> blank a = false) ->
  bracket_group ("["%char :: rest ++ LF :: fence) = None.
Proof.
  intros Hb Hn. cbn [bracket_group]. rewrite Ascii.eqb_refl.
  apply star_lazy_none. intros u v E.
  destruct (close_bracket ("["%char :: rest ++ LF :: fence) v) as [m|] eqn:Hk;
    [|reflexivity].
  assert (X : exists a, rest = u ++ "]"%char :: a /\ blank a = true)
    by (eapply close_bracket_inv; eassumption).
  destruct X as [a [Ea Ba]].
  rewrite (Hn u a Ea) in Ba. discriminate.
Qed.

End FencedFacts.

Section CleanFacts.

Import Regex Client.

Lemma fenced_eq (body : str) :
  fenced body = fence ++ lit "json" ++ LF :: body ++ LF :: fence.
Proof. reflexivity. Qed.

Lemma strip_fenced (body : str) : strip (fenced body) = fenced body.
Proof.
  rewrite <- (app_nil_r (fenced body)) at 1.
  apply (@strip_sandwich [] (fenced body) []); try reflexivity.
  split; [reflexivity|].
  unfold fenced. rewrite !app_assoc, rev_app_distr. reflexivity.
Qed.

Lemma contains_fenced (body : str) : contains fence (fenced body) = true.
Proof. reflexivity. Qed.

Lemma match_here_nofence (v : str) :
  startswith fence v = false -> match_here fence_pattern v = None.
Proof. intros H. now rewrite match_here_fence, H. Qed.

Lemma search_cons (r : regex) (c : ascii) (s : str) :
  search r (c :: s)
  = match match_here r (c :: s) with Some g => Some g | None => search r s end.
Proof. reflexivity. Qed.

Lemma nofence_lf (body : str) :
  contains fence body = false -> contains fence (LF :: body) = false.
Proof. intros H. cbn [contains]. rewrite H. reflexivity. Qed.

(** After the opening fence of a fenced body the pattern matches
    nowhere. *)
Lemma search_after_fence (body : str) :
  contains fence body = false ->
  search fence_pattern (tl (fenced body)) = None.
Proof.
  intros Hb. rewrite fenced_eq. cbn [fence lit list_ascii_of_string app tl].
  do 7 (rewrite search_cons, match_here_nofence by reflexivity).
  apply search_none. intros u v E.
  destruct (startswith fence v) eqn:S; [|now apply match_here_nofence].
  assert (F : v = fence)
    by (eapply final_fence; [exact Hb | exact E | exact S]).
  subst v. reflexivity.
Qed.

Lemma match_here_fenced (body : str) :
  match_here fence_pattern (fenced body)
  = bracket_group (lstrip (body ++ LF :: fence)).
Proof.
  rewrite match_here_fence, fenced_eq.
  set (rest := body ++ LF :: fence).
  change (startswith fence (fence ++ lit "json" ++ LF :: rest)) with true.
  change (startswith (lit "json") (skipn 3 (fence ++ lit "json" ++ LF :: rest)))
    with true.
  change (lstrip (skipn 4 (skipn 3 (fence ++ lit "json" ++ LF :: rest))))
    with (lstrip rest).
  change (bracket_group (lstrip (skipn 3 (fence ++ lit "json" ++ LF :: rest))))
    with (@None (option str)).
  destruct (bracket_group (lstrip rest)); reflexivity.
Qed.

Lemma search_fenced (body : str) :
  contains fence body = false ->
  search fence_pattern (fenced body)
  = bracket_group (lstrip (body ++ LF :: fence)).
Proof.
  intros Hb.
  assert (E : fenced body = "`"%char :: tl (fenced body)) by reflexivity.
  rewrite E at 1. rewrite search_cons, <- E, match_here_fenced.
  rewrite search_after_fence by exact Hb.
  destruct (bracket_group (lstrip (body ++ LF :: fence))); reflexivity.
Qed.

Lemma replace_prefix (old new s : str) :
  old <> [] -> replace old new (old ++ s) = new ++ replace old new s.
Proof.
  intros H. destruct old as [|a old]; [congruence|].
  unfold replace. cbn [app replace_go].
  pose proof (startswith_app (a :: old) s) as Hs. cbn [app] in Hs. rewrite Hs.
  replace (List.length (a :: old) - 1) with (List.length old)
    by (cbn [List.length]; lia).
  now rewrite replace_go_skip.
Qed.

Lemma startswith_weaken (p q v : str) :
  startswith (p ++ q) v = true -> startswith p v = true.
Proof.
  revert v; induction p as [|a p IH]; intros v; [reflexivity|].
  destruct v as [|b v]; cbn [app startswith]; [discriminate|].
  intros H. apply andb_true_iff in H as [H1 H2]. rewrite H1. now apply IH.
Qed.

(** Taking the markers off a fenced body leaves the body between its
    two line breaks. *)
Lemma replace_fenced (body : str) :
  contains fence body = false ->
  replace fence [] (replace fence_json [] (fenced body)) = LF :: body ++ [LF].
Proof.
  intros Hb. unfold fenced. rewrite replace_prefix by discriminate.
  cbn [app]. rewrite (replace_none fence_json []).
  - change (LF :: body ++ LF :: fence) with ((LF :: body) ++ [LF] ++ fence).
    rewrite app_assoc. apply replace_final; [discriminate|].
    intros u v E S. cbn [app] in E. rewrite <- app_assoc in E.
    eapply final_fence; [exact (@nofence_lf body Hb) | exact E | exact S].
  - intros u v E.
    destruct (startswith fence_json v) eqn:S; [|reflexivity].
    assert (F : v = fence).
    { eapply final_fence; [exact (@nofence_lf body Hb) | exact E |].
      now apply (@startswith_weaken fence (lit "json") v). }
    subst v. discriminate.
Qed.

End CleanFacts.

Section FencedClaims.

Import Regex Client.

Lemma clean_plain (body : str) :
  contains fence body = false ->
  clean_response_text body = Return (strip body).
Proof.
  intros Hb. unfold clean_response_text.
  destruct (strip_split body) as [a [b [E _]]].
  assert (H : contains fence (strip body) = false).
  { rewrite E in Hb. apply contains_suffix in Hb. now apply contains_prefix in Hb. }
  now rewrite H.
Qed.

Lemma exists_last_or_nil (s : str) : s = [] \/ exists s' d, s = s' ++ [d].
Proof.
  induction s as [|c s [->|[s' [d ->]]]].
  - now left.
  - right. now exists [], c.
  - right. now exists (c :: s'), d.
Qed.

(** What the blanks at the ends of a body leave of it is what is left of
    the fenced body without its markers. *)
Lemma strip_between (body : str) :
  strip (LF :: body ++ [LF]) = strip body.
Proof.
  destruct (strip_split body) as [a [b [E [Ba [Bb T]]]]].
  assert (X : LF :: body ++ [LF] = (LF :: a) ++ strip body ++ (b ++ [LF]))
    by (rewrite E at 1; cbn [app]; now rewrite <- !app_assoc).
  rewrite X. apply strip_sandwich; [|  | exact T].
  - cbn [blank forallb]. fold (blank a). now rewrite Ba.
  - rewrite blank_app, Bb. reflexivity.
Qed.

(** The text handed to the decoder for a fenced body is the body without
    the blanks at its ends. *)
Lemma clean_fenced (body : str) :
  contains fence body = false ->
  clean_response_text (fenced body) = Return (strip body).
Proof.
  intros Hb. unfold clean_response_text.
  rewrite strip_fenced, contains_fenced, search_fenced by exact Hb.
  assert (Hnone : bracket_group (lstrip (body ++ LF :: fence)) = None ->
                  match bracket_group (lstrip (body ++ LF :: fence)) with
                  | Some (Some group1) => Return group1
                  | Some None => Raise (Exception (lit "TypeError"))
                  | None =>
                      Return (strip (replace fence []
                                       (replace fence_json [] (fenced body))))
                  end = Return (strip body)).
  { intros ->. now rewrite replace_fenced, strip_between. }
  destruct (strip_split body) as [a [b [E [Ba [Bb [T1 T2]]]]]].
  assert (L : lstrip (body ++ LF :: fence)
              = lstrip (strip body ++ b ++ LF :: fence)).
  { rewrite E at 1. rewrite <- !app_assoc. now apply lstrip_blank. }
  destruct (strip body) as [|c core] eqn:Ecore.
  - (* a blank body *)
    apply Hnone. rewrite L. cbn [app].
    change (b ++ LF :: fence) with (b ++ [LF] ++ fence).
    rewrite app_assoc, lstrip_blank by (rewrite blank_app, Bb; reflexivity).
    reflexivity.
  - rewrite (@lstrip_fixed ((c :: core) ++ b ++ LF :: fence)) in L by exact T1.
    destruct (Ascii.eqb "[" c) eqn:Ec.
    2:{ (* a body that does not start with a bracket *)
        apply Hnone. rewrite L. cbn [app bracket_group]. now rewrite Ec. }
    apply Ascii.eqb_eq in Ec. subst c.
    assert (Hrest : contains fence (core ++ b) = false).
    { rewrite E in Hb. apply contains_suffix in Hb.
      cbn [app contains] in Hb. now apply orb_false_iff in Hb as [_ Hb]. }
    destruct (exists_last_or_nil core) as [->|[inner [d ->]]].
    + (* the bracket alone *)
      apply Hnone. rewrite L. cbn [app]. apply bracket_group_open.
      * exact Hrest.
      * intros u x Ex. cbn [app] in Ex. rewrite Ex, blank_app in Bb.
        cbn in Bb. now rewrite andb_false_r in Bb.
    + assert (Hd : isspace d = false).
      { change ("["%char :: inner ++ [d]) with (("["%char :: inner) ++ [d]) in T2.
        now rewrite rev_app_distr in T2. }
      destruct (ascii_dec d "]") as [->|Nd].
      * (* from bracket to bracket *)
        rewrite L.
        replace (("["%char :: inner ++ ["]"%char]) ++ b ++ LF :: fence)
          with ("["%char :: (inner ++ "]"%char :: b) ++ LF :: fence)
          by (cbn [app]; now rewrite <- !app_assoc).
        rewrite bracket_group_closed; [reflexivity | | exact Bb].
        now rewrite <- app_assoc in Hrest.
      * (* no bracket at the end *)
        apply Hnone. rewrite L.
        replace (("["%char :: inner ++ [d]) ++ b ++ LF :: fence)
          with ("["%char :: ((inner ++ [d]) ++ b) ++ LF :: fence)
          by (cbn [app]; now rewrite <- !app_assoc).
        apply bracket_group_open; [exact Hrest|].
        intros u x Ex. destruct (blank x) eqn:Bx; [|reflexivity].
        exfalso. apply Nd. rewrite <- app_assoc in Ex. cbn [app] in Ex.
        eapply last_nonblank; [exact Ex | exact Hd | reflexivity | exact Bb | exact Bx].
Qed.

End FencedClaims.

Section FencedTheorems.

Import Client.

(** C7, the claim as stated fails: a body with the fence marker in a
    string is parsed to a record when it stands alone, and fails to
    decode when it is fenced (group 1 of the pattern ends at the first
    bracket that blanks and a marker follow). *)
Lemma fenced_body_parsed_differently :
  parse_response_text JsonText.loads Runs.body_nested
  = Return [Runs.record_nested]
  /\ parse_response_text JsonText.loads (fenced Runs.body_nested)
     <> Return [Runs.record_nested].
Proof.
  split; [vm_compute; reflexivity|].
  vm_compute. discriminate.
Qed.

(** C7, amended. For every completion body in which the marker [```]
    does not occur, and every decoder, the body in a fenced block
    ([```json], a line break, the body, a line break, [```]) is parsed to
    what the body alone is parsed to: the same record set, or the same
    failure. *)
Theorem fenced_body_parsed_alike (json_loads : str -> outcome json) (body : str) :
  contains fence body = false ->
  parse_response_text json_loads (fenced body)
  = parse_response_text json_loads body.
Proof.
  intros Hb. unfold parse_response_text, loads_response_text.
  now rewrite clean_fenced, clean_plain.
Qed.

(** The record of the specification's example, fenced. *)
Lemma fenced_body_parsed_alike_witness :
  contains fence Runs.body_plain = false
  /\ parse_response_text JsonText.loads (fenced Runs.body_plain)
     = parse_response_text JsonText.loads Runs.body_plain.
Proof.
  split; [reflexivity | apply fenced_body_parsed_alike; reflexivity].
Defined.

(** The fenced example decodes to its one record. *)
Example fenced_body_plain_records :
  parse_response_text JsonText.loads (fenced Runs.body_plain)
  = Return [ JDict [ (lit "pan", JStr (lit "AAUFM6247N"));
                     (lit "relation", JStr (lit "PAN_Of"));
                     (lit "entity", JStr (lit "Mr. Agarwal")) ] ].
Proof. vm_compute. reflexivity. Qed.

End FencedTheorems.

(** ** Orchestrator *)

Section CallsOnly.

Lemma calls_only_ret {A} (a : A) : calls_only (ret a).
Proof. intros w w' H. split; [reflexivity | exact H]. Qed.

Lemma calls_only_bind {A B} (m : M A) (f : A -> M B) :
  calls_only m -> (forall a, calls_only (f a)) -> calls_only (bind m f).
Proof.
  intros Hm Hf w w' H. unfold bind. cbv zeta.
  destruct (Hm w w' H) as [E1 E2]. rewrite E1.
  exact (Hf (fst (m w')) _ _ E2).
Qed.

Lemma calls_only_print (line : nat) (args : list arg) : calls_only (print line args).
Proof. intros w w' H. split; [reflexivity | exact H]. Qed.

Lemma calls_only_sleep (seconds : Z) : calls_only (sleep seconds).
Proof. intros w w' H. split; [reflexivity | exact H]. Qed.

Lemma calls_only_when (b : bool) (m : M unit) :
  calls_only m -> calls_only (when b m).
Proof. destruct b; [trivial | intros _; apply calls_only_ret]. Qed.

Lemma calls_only_call_generate (env : Env) (model chunk : str) :
  calls_only (Client.call_generate env model chunk).
Proof.
  intros w w' H. unfold Client.call_generate. cbn [fst snd calls].
  rewrite H. split; reflexivity.
Qed.

(** Takes a computation apart down to the steps above; [tac] closes the
    recursive calls. *)
Ltac calls_only_with tac :=
  repeat first
    [ apply calls_only_ret | apply calls_only_print | apply calls_only_sleep
    | apply calls_only_call_generate | apply calls_only_when
    | apply calls_only_bind; [|intros ?]
    | progress cbv zeta
    | tac
    | match goal with
      | |- calls_only (match ?x with _ => _ end) => destruct x
      end ].

Variable json_loads : str -> outcome json.
Variable env : Env.

Lemma calls_only_try_attempt (model chunk : str) (chunk_num : Z) :
  calls_only (Client.try_attempt json_loads env model chunk chunk_num).
Proof. unfold Client.try_attempt. calls_only_with fail. Qed.

Lemma calls_only_attempts (n : nat) (attempt : Z) (model chunk : str)
  (chunk_num max_retries : Z) :
  calls_only (Client.attempts json_loads env n attempt model chunk chunk_num
                max_retries).
Proof.
  revert attempt; induction n as [|n IH]; intros attempt; cbn [Client.attempts].
  - apply calls_only_ret.
  - calls_only_with ltac:(apply calls_only_try_attempt || apply IH).
Qed.

Lemma calls_only_client (model chunk : str) (chunk_num total_chunks max_retries : Z) :
  calls_only (Client.extract_entities_from_chunk json_loads env model chunk
                chunk_num total_chunks max_retries).
Proof.
  unfold Client.extract_entities_from_chunk.
  calls_only_with ltac:(apply calls_only_attempts).
Qed.

Lemma calls_only_chunks_loop (model : str) (chunks : list str) (i total : Z)
  (all_entities : list json) :
  calls_only (Orchestrator.chunks_loop json_loads env model chunks i total
                all_entities).
Proof.
  revert i all_entities; induction chunks as [|chunk rest IH];
    intros i all_entities; cbn [Orchestrator.chunks_loop].
  - apply calls_only_ret.
  - calls_only_with ltac:(apply calls_only_client || apply IH).
Qed.

Lemma calls_only_gather (text model_name : str) :
  calls_only (Orchestrator.gather json_loads env text model_name).
Proof.
  unfold Orchestrator.gather.
  calls_only_with ltac:(apply calls_only_client || apply calls_only_chunks_loop).
Qed.

End CallsOnly.

Section OrchestratorFacts.

Import Orchestrator.

Variable json_loads : str -> outcome json.
Variable env : Env.

(** What [try_model] does with the records a model gathers, when the
    model can be built. *)
Lemma try_model_gather (text model_name : str) (model_index n_models : Z)
  (w : World) :
  GenerativeModel env model_name = Return tt ->
  try_model json_loads env text model_name model_index n_models w
  = let r := gather json_loads env text model_name
               (snd (print 215 [] (snd (print 214 [AStr model_name]
                                          (snd (print 213 [] w)))))) in
    match fst r with
    | Raise e => (Raise e, snd r)
    | Return entities =>
        conclude entities (len text >? 120000)%Z model_name model_index n_models
          (snd r)
    end.
Proof.
  intros Hm. unfold try_model, gather, bind. cbn [fst snd]. rewrite Hm.
  destruct (len text >? 120000)%Z; unfold bind; cbn [fst snd]; cbv zeta;
    match goal with |- context [match fst ?r with _ => _ end] =>
      destruct (fst r) end; reflexivity.
Qed.

(** A model that gathers nothing: the next model is tried, and after the
    last one the empty list is returned. *)
Lemma try_model_empty (text model_name : str) (model_index n_models : Z) (w : World) :
  GenerativeModel env model_name = Return tt ->
  fst (gather json_loads env text model_name (at_call (calls w))) = Return [] ->
  fst (try_model json_loads env text model_name model_index n_models w)
  = Return (if (model_index <? n_models - 1)%Z then Continue
            else Returned (Some []))
  /\ calls (snd (try_model json_loads env text model_name model_index n_models w))
     = calls (snd (gather json_loads env text model_name (at_call (calls w)))).
Proof.
  intros Hm Hg. rewrite (@try_model_gather text model_name model_index n_models w Hm). cbv zeta.
  match goal with |- context [gather _ _ _ _ ?w3] =>
    destruct (@calls_only_gather json_loads env text model_name w3
                (at_call (calls w)) eq_refl) as [E1 E2]
  end.
  rewrite E1, Hg. unfold conclude. cbn [nonnil].
  destruct (model_index <? n_models - 1)%Z; unfold bind, ret;
    cbn [fst snd calls print]; (split; [reflexivity | exact E2]).
Qed.

Lemma models_loop_empty (text : str) (models : list str) (model_index n_models : Z)
  (w : World) :
  models <> [] ->
  (model_index + Z.of_nat (List.length models) = n_models)%Z ->
  every_model_empty json_loads env text models (calls w) ->
  fst (models_loop json_loads env text models model_index n_models w) = Some [].
Proof.
  revert model_index w; induction models as [|m rest IH];
    intros model_index w Hn Hlen Hall; [congruence|].
  cbn [every_model_empty] in Hall. destruct Hall as [Hm [Hg Hrest]].
  destruct (@try_model_empty text m model_index n_models w Hm Hg) as [T1 T2].
  cbn [models_loop]. unfold bind at 1. cbn [fst snd].
  rewrite T1. cbn [List.length] in Hlen.
  destruct rest as [|m' rest].
  - assert (E : (model_index <? n_models - 1)%Z = false)
      by (apply Z.ltb_ge; cbn [List.length] in Hlen; lia).
    rewrite E. reflexivity.
  - assert (E : (model_index <? n_models - 1)%Z = true)
      by (apply Z.ltb_lt; cbn [List.length] in Hlen; lia).
    rewrite E. apply IH; [discriminate | lia |].
    rewrite T2. exact Hrest.
Qed.

Lemma print_models_calls (models : list str) (i : Z) (w : World) :
  calls (snd (print_models models i w)) = calls w.
Proof.
  revert i w; induction models as [|m rest IH]; intros i w; [reflexivity|].
  cbn [print_models]. unfold bind. cbn [fst snd]. now rewrite IH.
Qed.

Lemma extract_entities_with_gemini_empty (text api_key : str)
  (catalog : list Model) (w : World) :
  list_models env api_key = Return catalog ->
  Models.sort_models catalog <> [] ->
  every_model_empty json_loads env text (Models.sort_models catalog) (calls w) ->
  fst (extract_entities_with_gemini json_loads env text api_key w) = Some [].
Proof.
  intros Hcat Hne Hall.
  unfold extract_entities_with_gemini, Models.get_available_models.
  unfold bind at 1. cbn [fst snd]. unfold bind at 1. rewrite Hcat.
  cbn [fst snd ret].
  destruct (Models.sort_models catalog) as [|m rest] eqn:E; [congruence|].
  cbn [nonnil negb]. unfold bind. cbn [fst snd].
  apply models_loop_empty; [discriminate | lia |].
  rewrite print_models_calls. exact Hall.
Qed.

End OrchestratorFacts.

Section OrchestratorClaims.

Import Orchestrator.

(** C2, the claim as stated fails: when every model answers that there
    is no pair, the run ends with the empty list, the value of an
    extraction that succeeded with no match, and not with [None], the
    value of a failed extraction; [main] then prints that no pair was
    found (line 350), not that the extraction failed (line 342). *)
Lemma empty_results_not_a_failure :
  fst (extract_entities_with_gemini JsonText.loads Runs.env_no_pairs
         (lit "No PAN in this document.") (lit "key") world0)
  = Some []
  /\ fst (extract_entities_with_gemini JsonText.loads Runs.env_no_pairs
            (lit "No PAN in this document.") (lit "key") world0)
     <> None
  /\ In (350, []) (console (snd (Csv.main JsonText.loads Runs.env_no_pairs world0)))
  /\ ~ In (342, []) (console (snd (Csv.main JsonText.loads Runs.env_no_pairs world0))).
Proof.
  split; [vm_compute; reflexivity|]. split; [vm_compute; discriminate|].
  split.
  - vm_compute. tauto.
  - vm_compute. intuition discriminate.
Qed.

(** C2, amended. When the catalog offers a model and, in the run, every
    model can be built and has gathered no record after all its chunks,
    [extract_entities_with_gemini] returns the empty list, which is the
    value of an extraction that succeeded with no match ([None] is the
    value of a failed one); and [write_to_csv], given the empty list,
    writes no file. *)
Theorem empty_results_return_empty_list
  (json_loads : str -> outcome json) (env : Env) (text api_key : str)
  (catalog : list Model) (w : World) :
  list_models env api_key = Return catalog ->
  Models.sort_models catalog <> [] ->
  every_model_empty json_loads env text (Models.sort_models catalog) (calls w) ->
  fst (extract_entities_with_gemini json_loads env text api_key w) = Some []
  /\ forall csv_path w',
       csv_files (snd (Csv.write_to_csv env [] csv_path w')) = csv_files w'.
Proof.
  intros Hcat Hne Hempty. split.
  - now apply extract_entities_with_gemini_empty with (catalog := catalog).
  - reflexivity.
Qed.

(** A quota that recovers after three calls and four models that then
    answer [[]] for this document, and would answer with a record for
    another text. *)
Lemma empty_results_return_empty_list_witness :
  list_models (Runs.env_recovering (lit "No PAN in this document.")) (lit "key")
  = Return Runs.catalog4
  /\ Models.sort_models Runs.catalog4 <> []
  /\ every_model_empty JsonText.loads
       (Runs.env_recovering (lit "No PAN in this document."))
       (lit "No PAN in this document.") (Models.sort_models Runs.catalog4) 0
  /\ fst (extract_entities_with_gemini JsonText.loads
            (Runs.env_recovering (lit "No PAN in this document."))
            (lit "No PAN in this document.") (lit "key") world0) = Some [].
Proof.
  assert (Hne : Models.sort_models Runs.catalog4 <> [])
    by (vm_compute; discriminate).
  assert (Hempty : every_model_empty JsonText.loads
                     (Runs.env_recovering (lit "No PAN in this document."))
                     (lit "No PAN in this document.")
                     (Models.sort_models Runs.catalog4) 0)
    by (vm_compute; repeat split).
  split; [reflexivity|]. split; [exact Hne|]. split; [exact Hempty|].
  apply (@empty_results_return_empty_list JsonText.loads
           (Runs.env_recovering (lit "No PAN in this document."))
           (lit "No PAN in this document.") (lit "key") Runs.catalog4 world0
           eq_refl Hne Hempty).
Defined.

End OrchestratorClaims.

(** ** TextExtractor *)

Section PdfClaims.

Import Pdf.

Lemma text_parts_empty (pages : list (outcome str)) :
  Forall (fun page => page = Return []) pages -> text_parts pages = Return [].
Proof.
  induction 1 as [|page pages Hp _ IH]; [reflexivity|].
  subst page. cbn [text_parts]. now rewrite IH.
Qed.

(** C4, the claim as stated fails: for a file that is absent the
    function raises nothing, it returns [None]; and it returns the same
    for a file whose pages are all empty. *)
Lemma missing_pdf_returns_none :
  fst (extract_text_from_pdf (Runs.env_of Runs.catalog4 (fun _ _ _ => Raise (Exception [])))
         (lit "toext.pdf") world0) = Return None
  /\ (forall e,
        fst (extract_text_from_pdf
               (Runs.env_of Runs.catalog4 (fun _ _ _ => Raise (Exception [])))
               (lit "toext.pdf") world0) <> Raise e)
  /\ fst (extract_text_from_pdf (Runs.env_pdf [Return []; Return []])
            (lit "toext.pdf") world0) = Return None.
Proof.
  split; [reflexivity|]. split; [|reflexivity].
  intros e. vm_compute. discriminate.
Qed.

(** C4, amended. For every path, when the file is absent, or when every
    page of it yields the empty text, [extract_text_from_pdf] raises no
    exception and returns [None], the same value in both cases; what
    tells them apart is the line printed last: the error of line 12 for
    the absent file, the warning of line 21 for the pages without
    text. *)
Theorem extract_text_from_pdf_no_text (env : Env) (pdf_path : str) (w : World) :
  absent env pdf_path \/ image_only env pdf_path ->
  fst (extract_text_from_pdf env pdf_path w) = Return None
  /\ hd_error (console (snd (extract_text_from_pdf env pdf_path w)))
     = Some (match pdf_files env pdf_path with
             | None => (12, [AStr pdf_path])
             | Some _ => (21, [])
             end).
Proof.
  unfold absent, image_only, extract_text_from_pdf.
  intros [H|[pages [H Hp]]]; rewrite H.
  - split; reflexivity.
  - rewrite (text_parts_empty Hp). split; reflexivity.
Qed.

(** A scanned document of two pages. *)
Lemma extract_text_from_pdf_no_text_witness :
  image_only (Runs.env_pdf [Return []; Return []]) (lit "toext.pdf")
  /\ fst (extract_text_from_pdf (Runs.env_pdf [Return []; Return []])
            (lit "toext.pdf") world0) = Return None.
Proof.
  assert (H : image_only (Runs.env_pdf [Return []; Return []]) (lit "toext.pdf")).
  { exists [Return []; Return []]. split; [reflexivity|].
    repeat constructor. }
  split; [exact H|].
  apply (@extract_text_from_pdf_no_text (Runs.env_pdf [Return []; Return []])
           (lit "toext.pdf") world0 (or_intror H)).
Defined.

End PdfClaims.

(** * Further properties *)

(** ** Chunker *)

Section ChunkerMore.

Import Chunker.

Lemma terminated_app (g1 g2 : list str) :
  terminated (g1 ++ g2) = terminated g1 ++ terminated g2.
Proof. unfold terminated. now rewrite map_app, List.concat_app. Qed.

Lemma terminated_nonempty (g : list str) :
  nonempty (terminated g) = nonnil g.
Proof. destruct g as [|sec g]; [reflexivity|]. unfold terminated. simpl.
  destruct sec; reflexivity. Qed.

Lemma terminated_one (sec : str) : terminated [sec] = sec ++ para_sep.
Proof. unfold terminated. cbn [map List.concat]. apply app_nil_r. Qed.

(** The loop groups the sections: the chunks closed so far and the open
    one are each the sections of a group, put end to end. *)
Lemma chunk_loop_groups (max_chars : Z) (sections : list str)
  (done : list (list str)) (open : list str) :
  Forall (fun g => g <> []) done ->
  exists done' open',
    chunk_loop max_chars sections (map terminated done) (terminated open)
    = (map terminated done', terminated open')
    /\ List.concat done' ++ open' = List.concat done ++ open ++ sections
    /\ Forall (fun g => g <> []) done'
    /\ (sections <> [] \/ open <> [] -> open' <> []).
Proof.
  revert done open; induction sections as [|sec rest IH]; intros done open Hd.
  - exists done, open. rewrite app_nil_r. repeat split; auto.
    intros [H|H]; congruence.
  - cbn [chunk_loop].
    destruct (len (terminated open) + len sec <? max_chars)%Z.
    + destruct (IH done (open ++ [sec]) Hd) as [d' [o' [E [C [F N]]]]].
      exists d', o'. rewrite terminated_app, terminated_one in E. rewrite E.
      repeat split; auto.
      * rewrite C, <- !app_assoc. reflexivity.
      * intros _. apply N. right. now destruct open.
    + rewrite terminated_nonempty.
      destruct open as [|o open].
      * destruct (IH done [sec] Hd) as [d' [o' [E [C [F N]]]]].
        exists d', o'. cbn [nonnil].
        rewrite terminated_one in E. rewrite E.
        repeat split; auto.
        intros _. apply N. right. discriminate.
      * destruct (IH (done ++ [o :: open]) [sec]) as [d' [o' [E [C [F N]]]]].
        { apply Forall_app. split; [exact Hd|]. repeat constructor. discriminate. }
        exists d', o'. cbn [nonnil].
        rewrite map_app, terminated_one in E. cbn [map] in E. rewrite E.
        repeat split; auto.
        -- rewrite C, List.concat_app. cbn [List.concat].
           rewrite app_nil_r, <- !app_assoc. reflexivity.
        -- intros _. apply N. right. discriminate.
Qed.

(** X1. The chunks follow the paragraphs: the sections of the text
    ([text.split('\n\n')]) fall, in order, into groups of at least one
    section, and each chunk is the sections of one group, each followed
    by the separator.  No chunk starts or ends inside a paragraph. *)
Theorem chunk_text_groups (text : str) (max_chars : Z) :
  exists groups,
    List.concat groups = split para_sep text
    /\ Forall (fun g => g <> []) groups
    /\ chunk_text text max_chars = map terminated groups.
Proof.
  unfold chunk_text.
  destruct (@chunk_loop_groups max_chars (split para_sep text) [] []
              (Forall_nil _)) as [d [o [E [C [F N]]]]].
  change (map terminated []) with (@nil str) in E.
  change (terminated []) with (@nil ascii) in E.
  rewrite E. rewrite terminated_nonempty.
  assert (No : o <> []) by (apply N; left; apply split_go_nonnil).
  destruct o as [|sec o]; [congruence|]. cbn [nonnil].
  exists (d ++ [sec :: o]). split; [|split].
  - rewrite List.concat_app. cbn [List.concat]. rewrite app_nil_r.
    exact C.
  - apply Forall_app. split; [exact F|]. repeat constructor. discriminate.
  - rewrite map_app. reflexivity.
Qed.

Lemma len_terminated_snoc (group : list str) (sec : str) :
  len (terminated (group ++ [sec])) = (len (terminated group) + len sec + 2)%Z.
Proof.
  rewrite terminated_app, terminated_one. unfold len.
  rewrite !length_app. cbn [List.length para_sep]. lia.
Qed.

(** The grouping of the loop, with the bound: a group that takes a
    second section or more passed the test of line 79 with it. *)
Lemma chunk_loop_groups_within (max_chars : Z) (sections : list str)
  (done : list (list str)) (open : list str) :
  Forall (fun g => g <> []) done ->
  Forall (group_within max_chars) done ->
  group_within max_chars open ->
  exists done' open',
    chunk_loop max_chars sections (map terminated done) (terminated open)
    = (map terminated done', terminated open')
    /\ List.concat done' ++ open' = List.concat done ++ open ++ sections
    /\ Forall (fun g => g <> []) done'
    /\ (sections <> [] \/ open <> [] -> open' <> [])
    /\ Forall (group_within max_chars) done'
    /\ group_within max_chars open'.
Proof.
  revert done open; induction sections as [|sec rest IH];
    intros done open Hd Hw Ho.
  - exists done, open. rewrite app_nil_r. repeat split; auto.
    intros [H|H]; congruence.
  - assert (H1 : group_within max_chars [sec])
      by (intros H; cbn [List.length] in H; lia).
    cbn [chunk_loop].
    destruct (len (terminated open) + len sec <? max_chars)%Z eqn:T.
    + destruct (IH done (open ++ [sec]) Hd Hw) as [d' [o' [E [C [F [N [W O]]]]]]].
      { intros _. rewrite len_terminated_snoc. apply Z.ltb_lt in T. lia. }
      exists d', o'. rewrite terminated_app, terminated_one in E. rewrite E.
      repeat split; auto.
      * rewrite C, <- !app_assoc. reflexivity.
      * intros _. apply N. right. now destruct open.
    + rewrite terminated_nonempty.
      destruct open as [|o open].
      * destruct (IH done [sec] Hd Hw H1) as [d' [o' [E [C [F [N [W O]]]]]]].
        exists d', o'. cbn [nonnil].
        rewrite terminated_one in E. rewrite E.
        repeat split; auto.
        intros _. apply N. right. discriminate.
      * destruct (IH (done ++ [o :: open]) [sec])
          as [d' [o' [E [C [F [N [W O]]]]]]].
        { apply Forall_app. split; [exact Hd|]. repeat constructor. discriminate. }
        { apply Forall_app. split; [exact Hw|]. repeat constructor. exact Ho. }
        { exact H1. }
        exists d', o'. cbn [nonnil].
        rewrite map_app, terminated_one in E. cbn [map] in E. rewrite E.
        repeat split; auto.
        -- rewrite C, List.concat_app. cbn [List.concat].
           rewrite app_nil_r, <- !app_assoc. reflexivity.
        -- intros _. apply N. right. discriminate.
Qed.

(** A group spells its sections and two characters more for each. *)
Lemma len_terminated_ge (group : list str) :
  2 * List.length group <= List.length (terminated group).
Proof.
  induction group as [|x group IH]; [apply le_n|].
  change (x :: group) with ([x] ++ group).
  rewrite terminated_app, terminated_one, !length_app.
  cbn [List.length para_sep app]. lia.
Qed.

Lemma len_terminated_In (group : list str) (sec : str) :
  In sec group ->
  (len sec + 2 * Z.of_nat (List.length group) <= len (terminated group))%Z.
Proof.
  induction group as [|x group IH]; intros H; [contradiction|].
  pose proof (len_terminated_ge group) as G.
  change (x :: group) with ([x] ++ group).
  rewrite terminated_app, terminated_one. unfold len in *.
  rewrite !length_app. cbn [List.length para_sep app].
  destruct H as [->|H]; [|specialize (IH H)]; lia.
Qed.

Lemma group_within_alone (max_chars : Z) (group : list str) :
  group_within max_chars group -> oversized_alone max_chars group.
Proof.
  intros Hw sec Hin Hlen.
  destruct group as [|x [|y group]].
  - contradiction.
  - destruct Hin as [->|[]]. reflexivity.
  - pose proof (len_terminated_In _ _ Hin) as L.
    assert (B : 2 <= List.length (x :: y :: group)) by (cbn [List.length]; lia).
    specialize (Hw B). cbn [List.length] in L. lia.
Qed.

(** X2. The chunks are the groups of sections of X1, and every group
    keeps the bound: a chunk that holds two sections or more has at most
    [max_chars + 1] characters, and a section of [max_chars] characters
    or more is the only section of its chunk.  The test of line 79 does
    not count the separator put after the section, so a chunk of several
    sections can be one character longer than [max_chars]; an oversized
    section is never cut. *)
Theorem chunk_text_within (text : str) (max_chars : Z) :
  exists groups,
    List.concat groups = split para_sep text
    /\ Forall (fun g => g <> []) groups
    /\ chunk_text text max_chars = map terminated groups
    /\ Forall (group_within max_chars) groups
    /\ Forall (oversized_alone max_chars) groups.
Proof.
  unfold chunk_text.
  destruct (@chunk_loop_groups_within max_chars (split para_sep text) [] []
              (Forall_nil _) (Forall_nil _))
    as [d [o [E [C [F [N [W O]]]]]]].
  { intros H. cbn [List.length] in H. lia. }
  change (map terminated []) with (@nil str) in E.
  change (terminated []) with (@nil ascii) in E.
  rewrite E. rewrite terminated_nonempty.
  assert (No : o <> []) by (apply N; left; apply split_go_nonnil).
  destruct o as [|sec o]; [congruence|]. cbn [nonnil].
  assert (Wall : Forall (group_within max_chars) (d ++ [sec :: o]))
    by (apply Forall_app; split; [exact W|]; repeat constructor; exact O).
  exists (d ++ [sec :: o]). split; [|split; [|split; [|split]]].
  - rewrite List.concat_app. cbn [List.concat]. rewrite app_nil_r.
    exact C.
  - apply Forall_app. split; [exact F|]. repeat constructor. discriminate.
  - rewrite map_app. reflexivity.
  - exact Wall.
  - revert Wall. apply Forall_impl. intros g. apply group_within_alone.
Qed.

(** A chunk of two paragraphs that is one character over a bound of
    five. *)
Example chunk_text_one_over :
  chunk_text (lit "a" ++ para_sep ++ lit "b") 5
  = [lit "a" ++ para_sep ++ lit "b" ++ para_sep].
Proof. reflexivity. Qed.

End ChunkerMore.

(** ** CsvWriter *)

Section CsvMore.

Import Csv.

Lemma row_of_dict (d : list (str * json)) : row_of (JDict d) = Return (csv_row d).
Proof. reflexivity. Qed.

Lemma row_of_other (item : json) :
  is_dict item = false -> row_of item = Raise (Exception (lit "AttributeError")).
Proof. destruct item; try reflexivity. discriminate. Qed.

Lemma rows_of_dicts (dicts : list (list (str * json))) :
  rows_of (map JDict dicts) = (map csv_row dicts, None).
Proof.
  induction dicts as [|d dicts IH]; [reflexivity|].
  cbn [map rows_of]. rewrite row_of_dict, IH. reflexivity.
Qed.

Lemma rows_of_until (dicts : list (list (str * json))) (bad : json)
  (rest : list json) :
  is_dict bad = false ->
  rows_of (map JDict dicts ++ bad :: rest)
  = (map csv_row dicts, Some (Exception (lit "AttributeError"))).
Proof.
  intros Hb. induction dicts as [|d dicts IH].
  - cbn [map app rows_of]. now rewrite row_of_other.
  - cbn [map app rows_of]. rewrite row_of_dict, IH. reflexivity.
Qed.

Lemma rows_of_length (data : list json) :
  List.length (fst (rows_of data)) <= List.length data.
Proof.
  induction data as [|item data IH]; [apply le_n|].
  cbn [rows_of]. destruct (row_of item); cbn [fst List.length]; [|lia].
  destruct (rows_of data). cbn [fst List.length] in *. lia.
Qed.

(** X3. Given at least one record, records that are all objects and a
    file that can be opened, [write_to_csv] writes the header and one row
    for each record in order, a missing [pan], [relation] or [entity]
    written as the empty string: N records give N + 1 rows. *)
Theorem write_to_csv_rows (env : Env) (dicts : list (list (str * json)))
  (csv_path : str) (w : World) :
  dicts <> [] ->
  open_csv env csv_path = Return tt ->
  csv_files (snd (write_to_csv env (map JDict dicts) csv_path w))
  = (csv_path, header :: map csv_row dicts) :: csv_files w
  /\ List.length (header :: map csv_row dicts) = S (List.length dicts)
  /\ hd_error (console (snd (write_to_csv env (map JDict dicts) csv_path w)))
     = Some (309, [AStr csv_path]).
Proof.
  intros Hne Hopen. unfold write_to_csv.
  destruct dicts as [|d dicts]; [congruence|].
  cbn [map nonnil negb]. unfold bind. cbn [fst snd]. rewrite Hopen.
  change (JDict d :: map JDict dicts) with (map JDict (d :: dicts)).
  rewrite rows_of_dicts. cbn [fst snd].
  split; [reflexivity|]. split; [|reflexivity].
  cbn [List.length]. now rewrite length_map.
Qed.

(** Two records, the second without a [relation]. *)
Lemma write_to_csv_rows_witness :
  let env := Runs.env_of Runs.catalog4 (fun _ _ _ => Raise (Exception [])) in
  let dicts :=
    [ [ (lit "pan", JStr (lit "AAUFM6247N")); (lit "relation", JStr (lit "PAN_Of"));
        (lit "entity", JStr (lit "Mr. Agarwal")) ];
      [ (lit "pan", JStr (lit "AAACM9185B")); (lit "entity", JStr (lit "MFS")) ] ] in
  dicts <> []
  /\ csv_files (snd (write_to_csv env (map JDict dicts) (lit "result.csv") world0))
     = [ (lit "result.csv",
          [ header;
            [JStr (lit "AAUFM6247N"); JStr (lit "PAN_Of"); JStr (lit "Mr. Agarwal")];
            [JStr (lit "AAACM9185B"); JStr []; JStr (lit "MFS")] ]) ].
Proof.
  intros env dicts.
  assert (Hne : dicts <> []) by discriminate.
  split; [exact Hne|].
  exact (proj1 (@write_to_csv_rows env dicts (lit "result.csv") world0 Hne eq_refl)).
Defined.

(** X4. When a record is no object (a number, a string, a list), the
    file is left with the header and the rows of the records before it;
    the records after it are not written, and the error of line 311 is
    printed. *)
Theorem write_to_csv_stops (env : Env) (dicts : list (list (str * json)))
  (bad : json) (rest : list json) (csv_path : str) (w : World) :
  is_dict bad = false ->
  open_csv env csv_path = Return tt ->
  csv_files (snd (write_to_csv env (map JDict dicts ++ bad :: rest) csv_path w))
  = (csv_path, header :: map csv_row dicts) :: csv_files w
  /\ hd_error (console (snd (write_to_csv env (map JDict dicts ++ bad :: rest)
                                  csv_path w)))
     = Some (311, [AExn (Exception (lit "AttributeError"))]).
Proof.
  intros Hb Hopen. unfold write_to_csv.
  assert (N : nonnil (map JDict dicts ++ bad :: rest) = true)
    by (destruct dicts; reflexivity).
  rewrite N. cbn [negb]. unfold bind. cbn [fst snd]. rewrite Hopen.
  rewrite rows_of_until by exact Hb. cbn [fst snd].
  split; reflexivity.
Qed.

(** A number between two records. *)
Lemma write_to_csv_stops_witness :
  let env := Runs.env_of Runs.catalog4 (fun _ _ _ => Raise (Exception [])) in
  is_dict (JInt 5) = false
  /\ csv_files (snd (write_to_csv env
                       (map JDict [[(lit "pan", JStr (lit "AAUFM6247N"))]]
                        ++ JInt 5 :: [JDict [(lit "pan", JStr (lit "AAACM9185B"))]])
                       (lit "result.csv") world0))
     = [ (lit "result.csv",
          [ header; [JStr (lit "AAUFM6247N"); JStr []; JStr []] ]) ].
Proof.
  intros env. split; [reflexivity|].
  exact (proj1 (@write_to_csv_stops env [[(lit "pan", JStr (lit "AAUFM6247N"))]]
                  (JInt 5) [JDict [(lit "pan", JStr (lit "AAACM9185B"))]]
                  (lit "result.csv") world0 eq_refl eq_refl)).
Defined.

(** X5. Whatever the records and the environment, [write_to_csv] leaves
    the files as they are (no record, or a file that cannot be opened) or
    writes one file, at [csv_path], whose first row is the header and
    which has at most one row for each record. *)
Theorem write_to_csv_one_file (env : Env) (data : list json) (csv_path : str)
  (w : World) :
  csv_files (snd (write_to_csv env data csv_path w)) = csv_files w
  \/ exists rows,
       csv_files (snd (write_to_csv env data csv_path w))
       = (csv_path, header :: rows) :: csv_files w
       /\ List.length rows <= List.length data.
Proof.
  unfold write_to_csv. destruct (nonnil data); cbn [negb]; [|now left].
  unfold bind. cbn [fst snd].
  destruct (open_csv env csv_path); [|now left].
  pose proof (rows_of_length data) as L.
  destruct (rows_of data) as [rows err]. cbn [fst snd] in *.
  right. exists rows. split; [|exact L].
  destruct err; reflexivity.
Qed.

End CsvMore.

(** ** TextExtractor *)

Section PdfMore.

Import Pdf.

Lemma text_parts_texts (texts : list str) :
  text_parts (map Return texts) = Return (filter nonempty texts).
Proof.
  induction texts as [|t texts IH]; [reflexivity|].
  cbn [map text_parts filter]. rewrite IH. reflexivity.
Qed.

Lemma text_parts_nonempty (pages : list (outcome str)) (parts : list str) :
  text_parts pages = Return parts -> Forall (fun t => t <> []) parts.
Proof.
  revert parts; induction pages as [|page pages IH]; intros parts H.
  - injection H as <-. constructor.
  - cbn [text_parts] in H. destruct page as [t|e]; [|discriminate].
    destruct (text_parts pages) as [ps|e]; [|discriminate].
    injection H as <-. specialize (IH ps eq_refl).
    destruct t; cbn [nonempty]; [exact IH|]. constructor; [discriminate | exact IH].
Qed.

Lemma join_nonempty (sep : str) (parts : list str) :
  parts <> [] -> Forall (fun t => t <> []) parts -> join sep parts <> [].
Proof.
  destruct parts as [|p ps]; [congruence|]. intros _ H.
  apply Forall_inv in H. destruct p as [|c p]; [congruence|].
  destruct ps; discriminate.
Qed.

(** X6. For every environment and path [extract_text_from_pdf] raises
    nothing, also when the reader or a page raises, and what it returns
    is [None] or a text that is not empty: a caller never gets the empty
    string. *)
Theorem extract_text_from_pdf_some_text (env : Env) (pdf_path : str) (w : World) :
  fst (extract_text_from_pdf env pdf_path w) = Return None
  \/ exists t, fst (extract_text_from_pdf env pdf_path w) = Return (Some t)
               /\ t <> [].
Proof.
  unfold extract_text_from_pdf.
  destruct (pdf_files env pdf_path) as [reader|]; [|now left].
  unfold bind. cbn [fst snd].
  destruct reader as [pages|e]; [|now left].
  destruct (text_parts pages) as [parts|e] eqn:E; [|now left].
  destruct parts as [|p ps]; [now left|].
  right. eexists. split; [reflexivity|].
  apply join_nonempty; [discriminate|]. now apply text_parts_nonempty with pages.
Qed.

(** X7. Of a file that can be read, the text returned is the texts of
    the pages that have some, in page order, joined by one line break;
    pages without text leave no trace. *)
Theorem extract_text_from_pdf_pages (env : Env) (pdf_path : str)
  (texts : list str) (w : World) :
  pdf_files env pdf_path = Some (Return (map Return texts)) ->
  filter nonempty texts <> [] ->
  fst (extract_text_from_pdf env pdf_path w)
  = Return (Some (join [LF] (filter nonempty texts))).
Proof.
  intros Hf Hne. unfold extract_text_from_pdf. rewrite Hf.
  unfold bind. cbn [fst snd]. rewrite text_parts_texts.
  destruct (filter nonempty texts) as [|p ps]; [congruence | reflexivity].
Qed.

(** Three pages, the second scanned. *)
Lemma extract_text_from_pdf_pages_witness :
  let texts := [lit "PAN AAUFM6247N"; []; lit "Mr. Agarwal"] in
  filter nonempty texts <> []
  /\ fst (extract_text_from_pdf (Runs.env_pdf (map Return texts))
            (lit "toext.pdf") world0)
     = Return (Some (lit "PAN AAUFM6247N" ++ [LF] ++ lit "Mr. Agarwal")).
Proof.
  intros texts.
  assert (Hne : filter nonempty texts <> []) by discriminate.
  split; [exact Hne|].
  exact (@extract_text_from_pdf_pages (Runs.env_pdf (map Return texts))
           (lit "toext.pdf") texts world0 eq_refl Hne).
Defined.

End PdfMore.

(** ** ExtractionClient: requests and waits *)

Section ClientMore.

Import Client.

Variable json_loads : str -> outcome json.
Variable env : Env.

(** Unfolds the sequencing of the world computations. *)
Ltac run := unfold bind, ret, when; cbn [fst snd].

(** An attempt makes one request, does not wait and writes no file. *)
Lemma try_attempt_frame (model chunk : str) (chunk_num : Z) (w : World) :
  calls (snd (try_attempt json_loads env model chunk chunk_num w)) = S (calls w)
  /\ slept (snd (try_attempt json_loads env model chunk chunk_num w)) = slept w
  /\ csv_files (snd (try_attempt json_loads env model chunk chunk_num w))
     = csv_files w.
Proof.
  unfold try_attempt, call_generate. run.
  destruct (generate_content env (calls w) model chunk) as [response|e];
    [|repeat split].
  destruct (stopped response).
  - run. destruct (hd 0%Z (candidates response) =? 2)%Z; [repeat split|].
    destruct (hd 0%Z (candidates response) =? 3)%Z; repeat split.
  - destruct (text response) as [t|e]; [|repeat split].
    destruct (loads_response_text json_loads t) as [v|e]; [|repeat split].
    run. destruct v; repeat split.
Qed.

(** The loop makes at most one request for each iteration and writes no
    file. *)
Lemma attempts_frame (n : nat) (attempt : Z) (model chunk : str)
  (chunk_num max_retries : Z) (w : World) :
  calls w <= calls (snd (attempts json_loads env n attempt model chunk chunk_num
                           max_retries w)) <= calls w + n
  /\ csv_files (snd (attempts json_loads env n attempt model chunk chunk_num
                       max_retries w)) = csv_files w.
Proof.
  revert attempt w; induction n as [|n IH]; intros attempt w.
  - cbn. split; [lia | reflexivity].
  - rewrite attempts_S. cbv zeta.
    destruct (try_attempt_frame model chunk chunk_num w) as [Hc [_ Hf]].
    destruct (fst (try_attempt json_loads env model chunk chunk_num w))
      as [l|[msg|msg]].
    + cbn [snd]. rewrite Hc, Hf. split; [lia | reflexivity].
    + match goal with |- context [attempts _ _ _ _ _ _ _ _ ?w0] =>
        destruct (IH (attempt + 1)%Z w0) as [I1 I2];
        assert (C0 : calls w0 = S (calls w))
          by (destruct (attempt <? max_retries - 1)%Z; cbn; exact Hc);
        assert (F0 : csv_files w0 = csv_files w)
          by (destruct (attempt <? max_retries - 1)%Z; cbn; exact Hf)
      end.
      rewrite C0 in I1. rewrite F0 in I2. split; [lia | exact I2].
    + destruct (is_rate_limit msg).
      * destruct (attempt <? max_retries - 1)%Z.
        -- match goal with |- context [attempts _ _ _ _ _ _ _ _ ?w0] =>
             destruct (IH (attempt + 1)%Z w0) as [I1 I2];
             assert (C0 : calls w0 = S (calls w)) by (cbn; exact Hc);
             assert (F0 : csv_files w0 = csv_files w) by (cbn; exact Hf)
           end.
           rewrite C0 in I1. rewrite F0 in I2. split; [lia | exact I2].
        -- cbn [calls csv_files snd print]. rewrite Hc, Hf.
           split; [lia | reflexivity].
      * cbn [calls csv_files snd print]. rewrite Hc, Hf.
        split; [lia | reflexivity].
Qed.

(** What an attempt leaves of the world when its text does not decode. *)
Lemma try_attempt_undecodable (model chunk : str) (chunk_num : Z) (w : World) :
  undecodable json_loads env (calls w) model chunk ->
  exists msg,
    try_attempt json_loads env model chunk chunk_num w
    = (Raise (JSONDecodeError msg),
       {| calls := S (calls w); slept := slept w; console := console w;
          csv_files := csv_files w |}).
Proof.
  intros [response [t [msg [G [S [T L]]]]]]. exists msg.
  unfold try_attempt, call_generate. run. now rewrite G, S, T, L.
Qed.

(** When no text decodes the loop waits after each attempt but the last
    and then gives up with the empty list. *)
Lemma attempts_undecodable (n : nat) (attempt : Z) (model chunk : str)
  (chunk_num max_retries : Z) (w : World) :
  Z.of_nat (S n) = (max_retries - attempt)%Z ->
  (forall k, calls w <= k < calls w + S n ->
     undecodable json_loads env k model chunk) ->
  exists w',
    attempts json_loads env (S n) attempt model chunk chunk_num max_retries w
    = (Return [], w')
    /\ calls w' = calls w + S n
    /\ slept w' = rev (decode_waits_from attempt n) ++ slept w.
Proof.
  revert attempt w; induction n as [|n IH]; intros attempt w Hn Hall;
    destruct (@try_attempt_undecodable model chunk chunk_num w
                (Hall (calls w) ltac:(lia))) as [msg E];
    rewrite attempts_S; rewrite E; cbn [fst snd]; cbv zeta.
  - assert (B : (attempt <? max_retries - 1)%Z = false) by (apply Z.ltb_ge; lia).
    rewrite B. eexists. split; [reflexivity|].
    cbn. split; [lia | reflexivity].
  - assert (B : (attempt <? max_retries - 1)%Z = true) by (apply Z.ltb_lt; lia).
    rewrite B.
    match goal with |- context [attempts _ _ _ _ _ _ _ _ ?w0] =>
      destruct (IH (attempt + 1)%Z w0) as [w' [I1 [I2 I3]]] end.
    + lia.
    + cbn [calls when print sleep snd]. intros k Hk. apply Hall. lia.
    + exists w'. split; [exact I1|].
      cbn [calls slept when print sleep snd] in I2, I3.
      split; [lia|]. rewrite I3. cbn [decode_waits_from rev].
      now rewrite <- app_assoc.
Qed.

End ClientMore.

Section ClientMoreClaims.

Import Client.

(** X8. Whatever the answers, [extract_entities_from_chunk] makes at
    most [max_retries] generation requests for a chunk (none when
    [max_retries] is zero or negative) and writes no file. *)
Theorem extract_entities_from_chunk_requests
  (json_loads : str -> outcome json) (env : Env) (model chunk : str)
  (chunk_num total_chunks max_retries : Z) (w : World) :
  calls w
  <= calls (snd (extract_entities_from_chunk json_loads env model chunk chunk_num
                   total_chunks max_retries w))
  <= calls w + Z.to_nat max_retries
  /\ csv_files (snd (extract_entities_from_chunk json_loads env model chunk
                       chunk_num total_chunks max_retries w)) = csv_files w.
Proof.
  unfold extract_entities_from_chunk, bind. cbn [fst snd].
  apply (attempts_frame json_loads env (Z.to_nat max_retries) 0 model chunk
           chunk_num max_retries
           (snd (print 133 [AInt chunk_num; AInt total_chunks] w))).
Qed.

(** X9. A completion that did not finish with [STOP] (truncated,
    filtered) and an exception that is no rate limit are not retried:
    the result is the empty list after one request and no wait. *)
Theorem extract_entities_from_chunk_gives_up
  (json_loads : str -> outcome json) (env : Env) (model chunk : str)
  (chunk_num total_chunks max_retries : Z) (w : World) :
  (0 < max_retries)%Z ->
  gives_up env (calls w) model chunk ->
  fst (extract_entities_from_chunk json_loads env model chunk chunk_num
         total_chunks max_retries w) = Return []
  /\ calls (snd (extract_entities_from_chunk json_loads env model chunk chunk_num
                   total_chunks max_retries w)) = S (calls w)
  /\ slept (snd (extract_entities_from_chunk json_loads env model chunk chunk_num
                   total_chunks max_retries w)) = slept w.
Proof.
  intros Hpos Hg.
  unfold extract_entities_from_chunk, bind. cbn [fst snd].
  destruct (Z.to_nat max_retries) as [|n] eqn:En; [lia|].
  rewrite attempts_S. cbv zeta.
  destruct Hg as [[response [G S]]|[msg [G R]]].
  - unfold try_attempt, call_generate, bind, ret. cbn [fst snd calls print].
    rewrite G, S. unfold bind, ret. cbn [fst snd].
    destruct (hd 0%Z (candidates response) =? 2)%Z; [repeat split|].
    destruct (hd 0%Z (candidates response) =? 3)%Z; repeat split.
  - rewrite (@try_attempt_raised json_loads env model chunk chunk_num
               (snd (print 133 [AInt chunk_num; AInt total_chunks] w)) _ G).
    cbn [fst snd]. rewrite R. repeat split.
Qed.

(** A completion cut short by the length limit (finish reason 2). *)
Lemma extract_entities_from_chunk_gives_up_witness :
  let env := Runs.env_of Runs.catalog4
               (fun _ _ _ => Return {| candidates := [2%Z]; text := Return [] |}) in
  (0 < default_max_retries)%Z
  /\ gives_up env 0 (lit "models/gemini-2.0-flash") (lit "PAN AAUFM6247N")
  /\ fst (extract_entities_from_chunk JsonText.loads env
            (lit "models/gemini-2.0-flash") (lit "PAN AAUFM6247N") 1 1
            default_max_retries world0) = Return [].
Proof.
  intros env.
  assert (Hg : gives_up env 0 (lit "models/gemini-2.0-flash") (lit "PAN AAUFM6247N")).
  { left. eexists. split; reflexivity. }
  split; [reflexivity|]. split; [exact Hg|].
  exact (proj1 (@extract_entities_from_chunk_gives_up JsonText.loads env
                  (lit "models/gemini-2.0-flash") (lit "PAN AAUFM6247N") 1 1
                  default_max_retries world0 eq_refl Hg)).
Defined.

(** X10. When every attempt is answered by a completion whose text does
    not decode, [extract_entities_from_chunk] makes [max_retries]
    requests, waits [2 ** attempt] seconds after each attempt but the
    last (1 and 2 seconds with the default of three attempts) and returns
    the empty list. *)
Theorem extract_entities_from_chunk_undecodable
  (json_loads : str -> outcome json) (env : Env) (model chunk : str)
  (chunk_num total_chunks max_retries : Z) (w : World) :
  (0 < max_retries)%Z ->
  (forall k, calls w <= k < calls w + Z.to_nat max_retries ->
     undecodable json_loads env k model chunk) ->
  fst (extract_entities_from_chunk json_loads env model chunk chunk_num
         total_chunks max_retries w) = Return []
  /\ calls (snd (extract_entities_from_chunk json_loads env model chunk chunk_num
                   total_chunks max_retries w))
     = calls w + Z.to_nat max_retries
  /\ slept (snd (extract_entities_from_chunk json_loads env model chunk chunk_num
                   total_chunks max_retries w))
     = rev (decode_waits_from 0 (Z.to_nat max_retries - 1)) ++ slept w.
Proof.
  intros Hpos Hall.
  unfold extract_entities_from_chunk, bind. cbn [fst snd].
  destruct (Z.to_nat max_retries) as [|n] eqn:En; [lia|].
  destruct (@attempts_undecodable json_loads env n 0 model chunk chunk_num
              max_retries (snd (print 133 [AInt chunk_num; AInt total_chunks] w)))
    as [w' [E [C Hs]]]; [lia | exact Hall |].
  rewrite E. cbn [fst snd]. split; [reflexivity|]. split; [exact C|].
  rewrite Hs. replace (S n - 1) with n by lia. reflexivity.
Qed.

(** A model that answers with prose: three requests, waits of 1 and 2
    seconds. *)
Lemma extract_entities_from_chunk_undecodable_witness :
  let env := Runs.env_answering (lit "I found no table in this text.") in
  let run := extract_entities_from_chunk JsonText.loads env
               (lit "models/gemini-2.0-flash") (lit "PAN AAUFM6247N") 1 1 3 world0 in
  (0 < 3)%Z
  /\ fst run = Return []
  /\ calls (snd run) = 3
  /\ slept (snd run) = [2; 1]%Z.
Proof.
  intros env run.
  destruct (@extract_entities_from_chunk_undecodable JsonText.loads env
              (lit "models/gemini-2.0-flash") (lit "PAN AAUFM6247N") 1 1 3 world0)
    as [H1 [H2 H3]].
  - lia.
  - intros k _. do 3 eexists. repeat split; reflexivity.
  - split; [lia|]. split; [exact H1|]. split; [exact H2 | exact H3].
Defined.

(** X11. The first completion that ends normally and decodes ends the
    loop after that one request, without a wait: a list is returned as it
    is, a single object that is not empty is returned as a list of one
    record, and [null], [false], zero, the empty string and the empty
    object give no record. *)
Theorem extract_entities_from_chunk_decoded
  (json_loads : str -> outcome json) (env : Env) (model chunk : str)
  (chunk_num total_chunks max_retries : Z) (w : World) (parsed_data : json) :
  (0 < max_retries)%Z ->
  decodes_to json_loads env (calls w) model chunk parsed_data ->
  fst (extract_entities_from_chunk json_loads env model chunk chunk_num
         total_chunks max_retries w)
  = Return (match parsed_data with
            | JList l => l
            | JDict (_ :: _) => [parsed_data]
            | _ => if truthy parsed_data then [parsed_data] else []
            end)
  /\ calls (snd (extract_entities_from_chunk json_loads env model chunk chunk_num
                   total_chunks max_retries w)) = S (calls w)
  /\ slept (snd (extract_entities_from_chunk json_loads env model chunk chunk_num
                   total_chunks max_retries w)) = slept w.
Proof.
  intros Hpos [response [t [G [S [T L]]]]].
  unfold extract_entities_from_chunk, bind. cbn [fst snd].
  destruct (Z.to_nat max_retries) as [|n] eqn:En; [lia|].
  rewrite attempts_S. cbv zeta.
  unfold try_attempt, call_generate, bind, ret. cbn [fst snd calls print].
  rewrite G, S, T, L. unfold bind, ret. cbn [fst snd].
  destruct parsed_data as [| | | | |l|d]; try (repeat split).
  destruct d; repeat split.
Qed.

(** A single object instead of a list. *)
Lemma extract_entities_from_chunk_decoded_witness :
  let env := Runs.env_answering (JsonText.quoted "{'pan':'AAUFM6247N'}") in
  (0 < default_max_retries)%Z
  /\ fst (extract_entities_from_chunk JsonText.loads env
            (lit "models/gemini-2.0-flash") (lit "PAN AAUFM6247N") 1 1
            default_max_retries world0)
     = Return [JDict [(lit "pan", JStr (lit "AAUFM6247N"))]].
Proof.
  intros env. split; [reflexivity|].
  refine (proj1 (@extract_entities_from_chunk_decoded JsonText.loads env
                   (lit "models/gemini-2.0-flash") (lit "PAN AAUFM6247N") 1 1
                   default_max_retries world0
                   (JDict [(lit "pan", JStr (lit "AAUFM6247N"))]) eq_refl _)).
  do 2 eexists. repeat split; reflexivity.
Defined.

End ClientMoreClaims.

(** ** Orchestrator: requests, waits and results *)

Section OrchestratorMore.

Import Orchestrator.

Variable json_loads : str -> outcome json.
Variable env : Env.

Abbreviation client model chunk i total :=
  (Client.extract_entities_from_chunk json_loads env model chunk i total
     Client.default_max_retries).

(** A chunk costs at most three requests, writes no file and gives a
    list. *)
Lemma client_frame (model chunk : str) (i total : Z) (w : World) :
  calls w <= calls (snd (client model chunk i total w)) <= calls w + 3
  /\ csv_files (snd (client model chunk i total w)) = csv_files w
  /\ exists l, fst (client model chunk i total w) = Return l.
Proof.
  unfold Client.extract_entities_from_chunk, bind. cbn [fst snd].
  destruct (attempts_frame json_loads env
              (Z.to_nat Client.default_max_retries) 0 model chunk i
              Client.default_max_retries
              (snd (print 133 [AInt i; AInt total] w))) as [Hc Hf].
  destruct (attempts_total json_loads env
              (Z.to_nat Client.default_max_retries) 0 model chunk i
              Client.default_max_retries
              (snd (print 133 [AInt i; AInt total] w))) as [l [Hl _]].
  change (Z.to_nat Client.default_max_retries) with 3 in *.
  cbn [calls csv_files snd print] in Hc, Hf.
  split; [exact Hc|]. split; [exact Hf|]. now exists l.
Qed.

(** A chunk whose request is answered by a list costs one request and
    no wait. *)
Lemma client_answered (model chunk : str) (i total : Z) (w : World)
  (l : list json) :
  decodes_to json_loads env (calls w) model chunk (JList l) ->
  fst (client model chunk i total w) = Return l
  /\ calls (snd (client model chunk i total w)) = S (calls w)
  /\ slept (snd (client model chunk i total w)) = slept w.
Proof.
  intros [response [t [G [S [T L]]]]].
  unfold Client.extract_entities_from_chunk, bind. cbn [fst snd].
  change (Z.to_nat Client.default_max_retries) with 3.
  rewrite attempts_S. cbv zeta.
  unfold Client.try_attempt, Client.call_generate, bind, ret.
  cbn [fst snd calls print].
  rewrite G, S, T, L. unfold bind, ret. cbn [fst snd]. repeat split.
Qed.

(** One iteration of the loop over the chunks. *)
Lemma chunks_loop_cons (model chunk : str) (rest : list str) (i total : Z)
  (all_entities : list json) (w : World) :
  chunks_loop json_loads env model (chunk :: rest) i total all_entities w
  = match fst (client model chunk i total w) with
    | Raise e => (Raise e, snd (client model chunk i total w))
    | Return chunk_entities =>
        chunks_loop json_loads env model rest (i + 1) total
          (if nonnil chunk_entities then all_entities ++ chunk_entities
           else all_entities)
          (snd (when (i <? total)%Z (print 243 [] ;; sleep 5)
                  (snd (client model chunk i total w))))
    end.
Proof.
  cbn [chunks_loop]. unfold bind at 1. cbv zeta.
  destruct (fst (client model chunk i total w)); reflexivity.
Qed.

(** The pause between two chunks makes no request and writes no file. *)
Lemma pause_frame (b : bool) (w : World) :
  calls (snd (when b (print 243 [] ;; sleep 5) w)) = calls w
  /\ csv_files (snd (when b (print 243 [] ;; sleep 5) w)) = csv_files w.
Proof. destruct b; split; reflexivity. Qed.

(** The chunks of a model cost at most three requests each, write no
    file and give a list. *)
Lemma chunks_loop_frame (model : str) (chunks : list str) (i total : Z)
  (all_entities : list json) (w : World) :
  calls w
  <= calls (snd (chunks_loop json_loads env model chunks i total all_entities w))
  <= calls w + 3 * List.length chunks
  /\ csv_files (snd (chunks_loop json_loads env model chunks i total
                       all_entities w)) = csv_files w
  /\ exists l, fst (chunks_loop json_loads env model chunks i total
                      all_entities w) = Return l.
Proof.
  revert i all_entities w; induction chunks as [|chunk rest IH];
    intros i all_entities w.
  - cbn. split; [lia|]. split; [reflexivity|]. now exists all_entities.
  - rewrite chunks_loop_cons.
    destruct (client_frame model chunk i total w) as [Hc [Hf [l Hl]]].
    rewrite Hl.
    destruct (pause_frame (i <? total)%Z (snd (client model chunk i total w)))
      as [Pc Pf].
    match goal with |- context [chunks_loop _ _ _ _ _ _ ?acc ?w0] =>
      destruct (IH (i + 1)%Z acc w0) as [I1 [I2 I3]] end.
    rewrite Pc in I1. rewrite Pf in I2. cbn [List.length].
    split; [lia|]. split; [congruence | exact I3].
Qed.

(** When the chunks are answered in turn by lists, they are asked one
    request each, in order, with five seconds between two of them, and
    their records are put end to end. *)
Lemma chunks_loop_answered (answers : list (list json)) (model : str)
  (chunks : list str) (i total : Z) (all_entities : list json) (w : World) :
  answered_in_turn json_loads env model chunks (calls w) answers ->
  (i + Z.of_nat (List.length chunks) = total + 1)%Z ->
  fst (chunks_loop json_loads env model chunks i total all_entities w)
  = Return (all_entities ++ List.concat answers)
  /\ calls (snd (chunks_loop json_loads env model chunks i total all_entities w))
     = calls w + List.length chunks
  /\ slept (snd (chunks_loop json_loads env model chunks i total all_entities w))
     = repeat 5%Z (List.length chunks - 1) ++ slept w.
Proof.
  revert answers i all_entities w; induction chunks as [|chunk rest IH];
    intros answers i all_entities w Ha Hi.
  - destruct answers; [|contradiction].
    cbn. rewrite app_nil_r. repeat split. lia.
  - destruct answers as [|l answers]; [contradiction|].
    cbn [answered_in_turn] in Ha. destruct Ha as [Hd Ha].
    rewrite chunks_loop_cons.
    destruct (@client_answered model chunk i total w l Hd) as [Hl [Hc Hs]].
    rewrite Hl. cbn [List.length] in Hi.
    assert (Hacc : (if nonnil l then all_entities ++ l else all_entities)
                   = all_entities ++ l)
      by (destruct l; [now rewrite app_nil_r | reflexivity]).
    rewrite Hacc.
    destruct (pause_frame (i <? total)%Z (snd (client model chunk i total w)))
      as [Pc _].
    match goal with |- context [chunks_loop _ _ _ _ _ _ _ ?w0] =>
      destruct (IH answers (i + 1)%Z (all_entities ++ l) w0) as [I1 [I2 I3]];
      [rewrite Pc, Hc; exact Ha | lia |]
    end.
    rewrite I1, I2, I3. cbn [List.concat List.length].
    rewrite <- app_assoc. split; [reflexivity|].
    destruct rest as [|chunk' rest].
    + assert (B : (i <? total)%Z = false)
        by (apply Z.ltb_ge; cbn [List.length] in Hi; lia).
      rewrite B. cbn [when ret snd List.length Nat.sub repeat app].
      rewrite Hc, Hs. split; [lia | reflexivity].
    + assert (B : (i <? total)%Z = true)
        by (apply Z.ltb_lt; cbn [List.length] in Hi; lia).
      rewrite B. unfold when, bind. cbn [fst snd calls slept print sleep].
      rewrite Hc, Hs. split; [cbn [List.length]; lia|].
      cbn [List.length Nat.sub]. rewrite Nat.sub_0_r.
      change (5%Z :: slept w) with ([5%Z] ++ slept w).
      rewrite app_assoc. f_equal.
      rewrite <- repeat_cons. reflexivity.
Qed.

End OrchestratorMore.

Section ModelsLoopMore.

Import Orchestrator.

Variable json_loads : str -> outcome json.
Variable env : Env.

(** Listing the models makes no request, does not wait and writes no
    file. *)
Lemma get_available_models_frame (api_key : str) (w : World) :
  fst (Models.get_available_models env api_key w) = available_models env api_key
  /\ calls (snd (Models.get_available_models env api_key w)) = calls w
  /\ slept (snd (Models.get_available_models env api_key w)) = slept w
  /\ csv_files (snd (Models.get_available_models env api_key w)) = csv_files w.
Proof.
  unfold Models.get_available_models, available_models.
  destruct (list_models env api_key); repeat split.
Qed.

Lemma print_models_frame (models : list str) (i : Z) (w : World) :
  calls (snd (print_models models i w)) = calls w
  /\ slept (snd (print_models models i w)) = slept w
  /\ csv_files (snd (print_models models i w)) = csv_files w.
Proof.
  revert i w; induction models as [|m rest IH]; intros i w; [repeat split|].
  cbn [print_models]. unfold bind. cbn [fst snd].
  destruct (IH (i + 1)%Z (snd (print 208 [AInt i; AStr m] w))) as [H1 [H2 H3]].
  rewrite H1, H2, H3. repeat split.
Qed.

(** What handling one model comes to: at most three requests for each
    text sent and no file; an exception only when the model cannot be
    built; the next model only when there is one; and otherwise a list. *)
Lemma try_model_cases (text model_name : str) (model_index n_models : Z)
  (w : World) :
  calls w
  <= calls (snd (try_model json_loads env text model_name model_index n_models w))
  <= calls w + 3 * List.length (pieces text)
  /\ csv_files (snd (try_model json_loads env text model_name model_index
                       n_models w)) = csv_files w
  /\ match fst (try_model json_loads env text model_name model_index n_models w)
     with
     | Raise e => GenerativeModel env model_name = Raise e
     | Return Continue => (model_index < n_models - 1)%Z
     | Return (Returned v) => exists l, v = Some l
     end.
Proof.
  unfold try_model, pieces, bind. cbn [fst snd].
  destruct (GenerativeModel env model_name) as [u|e] eqn:G.
  2:{ cbn [fst snd calls csv_files print ret].
      split; [lia|]. split; reflexivity. }
  destruct (len text >? 120000)%Z.
  - unfold bind. cbn [fst snd].
    match goal with |- context [chunks_loop _ _ _ ?cs ?i ?t ?a ?w0] =>
      destruct (chunks_loop_frame json_loads env model_name cs i t a w0)
        as [Hc [Hf [l Hl]]];
      assert (C0 : calls w0 = calls w) by reflexivity;
      assert (F0 : csv_files w0 = csv_files w) by reflexivity;
      destruct (chunks_loop json_loads env model_name cs i t a w0) as [r1 w1]
    end.
    cbn [fst snd] in *. subst r1. unfold conclude.
    destruct (nonnil l).
    + unfold when, bind, ret. cbn [fst snd calls csv_files print].
      split; [lia|]. split; [congruence|]. now exists l.
    + destruct (model_index <? n_models - 1)%Z eqn:B.
      * unfold bind, ret. cbn [fst snd calls csv_files print].
        split; [lia|]. split; [congruence|]. now apply Z.ltb_lt.
      * unfold ret. cbn [fst snd].
        split; [lia|]. split; [congruence|]. now exists [].
  - unfold bind. cbn [fst snd].
    match goal with
    | |- context [Client.extract_entities_from_chunk _ _ _ ?c ?i ?t _ ?w0] =>
      destruct (client_frame json_loads env model_name c i t w0)
        as [Hc [Hf [l Hl]]];
      assert (C0 : calls w0 = calls w) by reflexivity;
      assert (F0 : csv_files w0 = csv_files w) by reflexivity;
      destruct (Client.extract_entities_from_chunk json_loads env model_name
                  c i t Client.default_max_retries w0) as [r1 w1]
    end.
    cbn [fst snd List.length] in *. subst r1. unfold conclude.
    destruct (nonnil l).
    + unfold when, bind, ret. cbn [fst snd].
      split; [lia|]. split; [congruence|]. now exists l.
    + destruct (model_index <? n_models - 1)%Z eqn:B.
      * unfold bind, ret. cbn [fst snd calls csv_files print].
        split; [lia|]. split; [congruence|]. now apply Z.ltb_lt.
      * unfold ret. cbn [fst snd].
        split; [lia|]. split; [congruence|]. now exists [].
Qed.

(** One iteration of the loop over the models. *)
Lemma models_loop_cons (text model_name : str) (rest : list str)
  (model_index n_models : Z) (w : World) :
  exists w',
    calls w' = calls (snd (try_model json_loads env text model_name model_index
                             n_models w))
    /\ csv_files w'
       = csv_files (snd (try_model json_loads env text model_name model_index
                           n_models w))
    /\ models_loop json_loads env text (model_name :: rest) model_index n_models w
       = match fst (try_model json_loads env text model_name model_index
                      n_models w) with
         | Return (Returned v) => (v, w')
         | Return Continue =>
             models_loop json_loads env text rest (model_index + 1) n_models w'
         | Raise e =>
             if (model_index <? n_models - 1)%Z
             then models_loop json_loads env text rest (model_index + 1)
                    n_models w'
             else (None, w')
         end.
Proof.
  cbn [models_loop]. unfold bind at 1. cbv zeta.
  destruct (fst (try_model json_loads env text model_name model_index n_models w))
    as [[v|]|e].
  - eexists. split; [|split]. 3: reflexivity. all: reflexivity.
  - eexists. split; [|split]. 3: reflexivity. all: reflexivity.
  - destruct (Client.is_rate_limit (exn_msg e));
      destruct (model_index <? n_models - 1)%Z;
      (eexists; split; [|split]; [| |reflexivity]; reflexivity).
Qed.

(** The loop over the models: at most three requests for each text and
    model, no file, and [None] only after an exception of the last
    model, which is a model that could not be built. *)
Lemma models_loop_cases (text : str) (models : list str)
  (model_index n_models : Z) (w : World) :
  (model_index + Z.of_nat (List.length models) = n_models)%Z ->
  calls w
  <= calls (snd (models_loop json_loads env text models model_index n_models w))
  <= calls w + 3 * List.length (pieces text) * List.length models
  /\ csv_files (snd (models_loop json_loads env text models model_index
                       n_models w)) = csv_files w
  /\ (fst (models_loop json_loads env text models model_index n_models w) = None ->
      models = [] \/ exists e, GenerativeModel env (last models []) = Raise e).
Proof.
  revert model_index w; induction models as [|m rest IH];
    intros model_index w Hn.
  - cbn. split; [lia|]. split; [reflexivity|]. now left.
  - destruct (models_loop_cons text m rest model_index n_models w)
      as [w' [Cw [Fw E]]].
    destruct (try_model_cases text m model_index n_models w) as [Hc [Hf Hr]].
    rewrite E. cbn [List.length] in *.
    assert (Hlast : rest <> [] -> last (m :: rest) [] = last rest [])
      by (destruct rest; [congruence | reflexivity]).
    assert (Hnext :
      (model_index < n_models - 1)%Z ->
      calls w
      <= calls (snd (models_loop json_loads env text rest (model_index + 1)
                       n_models w'))
      <= calls w + 3 * List.length (pieces text) * S (List.length rest)
      /\ csv_files (snd (models_loop json_loads env text rest (model_index + 1)
                           n_models w')) = csv_files w
      /\ (fst (models_loop json_loads env text rest (model_index + 1)
                 n_models w') = None ->
          m :: rest = [] \/ exists e, GenerativeModel env (last (m :: rest) []) = Raise e)).
    { intros Hlt.
      destruct (IH (model_index + 1)%Z w' ltac:(lia)) as [I1 [I2 I3]].
      split; [nia|]. split; [congruence|].
      intros HN. right. destruct (I3 HN) as [->|H].
      - cbn [List.length] in Hn. lia.
      - rewrite Hlast; [exact H|]. intros ->. cbn [List.length] in Hn. lia. }
    destruct (fst (try_model json_loads env text m model_index n_models w))
      as [[v|]|e].
    + cbn [fst snd]. split; [nia|]. split; [congruence|].
      destruct Hr as [l ->]. discriminate.
    + now apply Hnext.
    + destruct (model_index <? n_models - 1)%Z eqn:B.
      * apply Hnext. now apply Z.ltb_lt.
      * cbn [fst snd]. split; [nia|]. split; [congruence|].
        intros _. right. exists e.
        apply Z.ltb_ge in B.
        assert (rest = []) by (destruct rest; [reflexivity | cbn [List.length] in Hn; lia]).
        subst rest. exact Hr.
Qed.

End ModelsLoopMore.

Section OrchestratorMoreClaims.

Import Orchestrator.

(** What [extract_entities_with_gemini] comes to: nothing without a
    model, the loop over the models otherwise, after lines that make no
    request, do not wait and write no file. *)
Lemma extract_entities_with_gemini_loop
  (json_loads : str -> outcome json) (env : Env) (text api_key : str) (w : World) :
  exists w0,
    calls w0 = calls w /\ slept w0 = slept w /\ csv_files w0 = csv_files w
    /\ extract_entities_with_gemini json_loads env text api_key w
       = match available_models env api_key with
         | [] => (None, w0)
         | _ :: _ =>
             models_loop json_loads env text (available_models env api_key) 0
               (Z.of_nat (List.length (available_models env api_key))) w0
         end.
Proof.
  unfold extract_entities_with_gemini, bind. cbn [fst snd].
  destruct (get_available_models_frame env api_key (snd (print 196 [] w)))
    as [H1 [H2 [H3 H4]]].
  destruct (Models.get_available_models env api_key (snd (print 196 [] w)))
    as [models w1].
  cbn [fst snd calls slept csv_files print] in *. subst models.
  destruct (available_models env api_key) as [|m rest] eqn:E.
  - cbn [nonnil negb]. unfold bind, ret. cbn [fst snd].
    eexists. split; [|split; [|split]]; [| | |reflexivity]; assumption.
  - cbn [nonnil negb]. unfold bind. cbn [fst snd].
    match goal with |- context [print_models ?ms ?i ?wp] =>
      destruct (print_models_frame ms i wp) as [P1 [P2 P3]];
      exists (snd (print_models ms i wp))
    end.
    cbn [calls slept csv_files snd print] in P1, P2, P3.
    split; [congruence|]. split; [congruence|]. split; [congruence|].
    reflexivity.
Qed.

(** X12. Whatever the answers, a run makes at most three generation
    requests for each model and each text sent to it (the chunks of a text
    of more than 120000 characters, the text itself otherwise), and
    [extract_entities_with_gemini] writes no file. *)
Theorem extract_entities_with_gemini_requests
  (json_loads : str -> outcome json) (env : Env) (text api_key : str) (w : World) :
  calls w
  <= calls (snd (extract_entities_with_gemini json_loads env text api_key w))
  <= calls w
     + 3 * List.length (pieces text) * List.length (available_models env api_key)
  /\ csv_files (snd (extract_entities_with_gemini json_loads env text api_key w))
     = csv_files w.
Proof.
  destruct (extract_entities_with_gemini_loop json_loads env text api_key w)
    as [w0 [C [_ [F E]]]].
  rewrite E.
  destruct (available_models env api_key) as [|m rest].
  - cbn [snd]. split; [lia | exact F].
  - destruct (@models_loop_cases json_loads env text (m :: rest) 0
                (Z.of_nat (List.length (m :: rest))) w0 ltac:(lia))
      as [Hc [Hf _]].
    split; [lia | congruence].
Qed.

(** X13. [extract_entities_with_gemini] returns [None] only when no
    model is available (the catalog cannot be listed, or lists no model
    that generates content) or when the last model in the order of
    preference cannot be built: a rate limit, a refused request or a text
    that does not decode never makes the run fail, they make it end with
    the empty list. *)
Theorem extract_entities_with_gemini_fails
  (json_loads : str -> outcome json) (env : Env) (text api_key : str) (w : World) :
  fst (extract_entities_with_gemini json_loads env text api_key w) = None ->
  available_models env api_key = []
  \/ exists e,
       GenerativeModel env (last (available_models env api_key) []) = Raise e.
Proof.
  destruct (extract_entities_with_gemini_loop json_loads env text api_key w)
    as [w0 [_ [_ [_ E]]]].
  rewrite E.
  destruct (available_models env api_key) as [|m rest] eqn:A; [now left|].
  intros HN.
  destruct (@models_loop_cases json_loads env text (m :: rest) 0
              (Z.of_nat (List.length (m :: rest))) w0 ltac:(lia))
    as [_ [_ Hr]].
  destruct (Hr HN) as [H|H]; [discriminate | now right].
Qed.

(** Models that cannot be built. *)
Lemma extract_entities_with_gemini_fails_witness :
  fst (extract_entities_with_gemini JsonText.loads env_no_model
         (lit "PAN AAUFM6247N") (lit "key") world0) = None
  /\ (available_models env_no_model (lit "key") = []
      \/ exists e,
           GenerativeModel env_no_model
             (last (available_models env_no_model (lit "key")) []) = Raise e).
Proof.
  assert (H : fst (extract_entities_with_gemini JsonText.loads env_no_model
                     (lit "PAN AAUFM6247N") (lit "key") world0) = None)
    by (vm_compute; reflexivity).
  split; [exact H|].
  exact (@extract_entities_with_gemini_fails JsonText.loads env_no_model
           (lit "PAN AAUFM6247N") (lit "key") world0 H).
Defined.

(** X14. Without an available model [extract_entities_with_gemini]
    returns [None] at once: no model is built, no request is made and
    nothing is waited for. *)
Theorem extract_entities_with_gemini_no_model
  (json_loads : str -> outcome json) (env : Env) (text api_key : str) (w : World) :
  available_models env api_key = [] ->
  fst (extract_entities_with_gemini json_loads env text api_key w) = None
  /\ calls (snd (extract_entities_with_gemini json_loads env text api_key w))
     = calls w
  /\ slept (snd (extract_entities_with_gemini json_loads env text api_key w))
     = slept w.
Proof.
  intros A.
  destruct (extract_entities_with_gemini_loop json_loads env text api_key w)
    as [w0 [C [S [_ E]]]].
  rewrite E, A. cbn [fst snd]. repeat split; assumption.
Qed.

(** A catalog that cannot be listed. *)
Lemma extract_entities_with_gemini_no_model_witness :
  available_models env_no_catalog (lit "key") = []
  /\ fst (extract_entities_with_gemini JsonText.loads env_no_catalog
            (lit "PAN AAUFM6247N") (lit "key") world0) = None.
Proof.
  split; [reflexivity|].
  exact (proj1 (@extract_entities_with_gemini_no_model JsonText.loads
                  env_no_catalog (lit "PAN AAUFM6247N") (lit "key") world0
                  eq_refl)).
Defined.

(** A model that can be built and whose requests are answered in turn
    by lists. *)
Lemma try_model_answered
  (json_loads : str -> outcome json) (env : Env) (answers : list (list json))
  (text model_name : str) (model_index n_models : Z) (w : World) :
  GenerativeModel env model_name = Return tt ->
  answered_in_turn json_loads env model_name (pieces text) (calls w) answers ->
  List.concat answers <> [] ->
  fst (try_model json_loads env text model_name model_index n_models w)
  = Return (Returned (Some (List.concat answers)))
  /\ calls (snd (try_model json_loads env text model_name model_index n_models w))
     = calls w + List.length (pieces text)
  /\ slept (snd (try_model json_loads env text model_name model_index n_models w))
     = repeat 5%Z (List.length (pieces text) - 1) ++ slept w.
Proof.
  intros Hmodel Ha Hne.
  unfold try_model, bind. cbn [fst snd]. rewrite Hmodel.
  unfold pieces in *.
  destruct (len text >? 120000)%Z.
  - unfold bind. cbn [fst snd].
    match goal with |- context [chunks_loop _ _ _ ?cs ?i ?t ?a ?w1] =>
      destruct (@chunks_loop_answered json_loads env answers model_name cs i t a
                  w1 Ha ltac:(lia)) as [H1 [H2 H3]];
      assert (C1 : calls w1 = calls w) by reflexivity;
      assert (S1 : slept w1 = slept w) by reflexivity;
      destruct (chunks_loop json_loads env model_name cs i t a w1) as [r2 w2]
    end.
    cbn [fst snd app] in *. subst r2. unfold conclude.
    destruct (List.concat answers) as [|x l] eqn:F; [congruence|].
    cbn [nonnil]. unfold when, bind, ret. cbn [fst snd calls slept print].
    split; [reflexivity|]. split; congruence.
  - destruct answers as [|l answers]; [contradiction|].
    destruct answers; [|cbn in Ha; tauto].
    cbn [answered_in_turn] in Ha. destruct Ha as [Hd _].
    cbn [List.concat] in *. rewrite app_nil_r in *.
    unfold bind. cbn [fst snd].
    match goal with
    | |- context [Client.extract_entities_from_chunk _ _ _ ?c ?i ?t _ ?w1] =>
      destruct (@client_answered json_loads env model_name c i t w1 l Hd)
        as [H1 [H2 H3]];
      assert (C1 : calls w1 = calls w) by reflexivity;
      assert (S1 : slept w1 = slept w) by reflexivity;
      destruct (Client.extract_entities_from_chunk json_loads env model_name c i t
                  Client.default_max_retries w1) as [r2 w2]
    end.
    cbn [fst snd List.length Nat.sub repeat app] in *.
    subst r2. unfold conclude.
    destruct l as [|x l]; [congruence|].
    cbn [nonnil]. unfold when, bind, ret. cbn [fst snd].
    split; [reflexivity|]. split; [lia | congruence].
Qed.

(** The loop stops at the first model that returns. *)
Lemma models_loop_returned
  (json_loads : str -> outcome json) (env : Env) (text model_name : str)
  (rest : list str) (model_index n_models : Z) (w : World)
  (v : option (list json)) :
  fst (try_model json_loads env text model_name model_index n_models w)
  = Return (Returned v) ->
  models_loop json_loads env text (model_name :: rest) model_index n_models w
  = (v, snd (try_model json_loads env text model_name model_index n_models w)).
Proof.
  intros H. cbn [models_loop]. unfold bind at 1. cbv zeta. rewrite H.
  reflexivity.
Qed.

(** A run whose first model can be built and answers in turn with
    lists. *)
Lemma extract_entities_with_gemini_run
  (json_loads : str -> outcome json) (env : Env) (answers : list (list json))
  (text api_key : str) (w : World) :
  available_models env api_key <> [] ->
  GenerativeModel env (hd [] (available_models env api_key)) = Return tt ->
  answered_in_turn json_loads env (hd [] (available_models env api_key))
    (pieces text) (calls w) answers ->
  List.concat answers <> [] ->
  exists w',
    extract_entities_with_gemini json_loads env text api_key w
    = (Some (List.concat answers), w')
    /\ calls w' = calls w + List.length (pieces text)
    /\ slept w' = repeat 5%Z (List.length (pieces text) - 1) ++ slept w
    /\ csv_files w' = csv_files w.
Proof.
  intros Hav Hmodel Ha Hne.
  destruct (extract_entities_with_gemini_loop json_loads env text api_key w)
    as [w0 [C [S [F E]]]].
  rewrite E. clear E.
  destruct (available_models env api_key) as [|m rest]; [congruence|].
  cbn [hd] in Hmodel, Ha. rewrite <- C in Ha.
  destruct (@try_model_answered json_loads env answers text m 0
              (Z.of_nat (List.length (m :: rest))) w0 Hmodel Ha Hne)
    as [T1 [T2 T3]].
  destruct (try_model_cases json_loads env text m 0
              (Z.of_nat (List.length (m :: rest))) w0) as [_ [T4 _]].
  rewrite (@models_loop_returned _ _ _ _ rest _ _ _ _ T1).
  eexists. split; [reflexivity|]. repeat split; congruence.
Qed.

(** X15. When the first model in the order of preference can be built
    and the requests the run makes to it, one for each text sent (the
    chunks in order, or the text itself), are each answered by a
    completion that decodes to a list, with at least one record in all,
    the run makes those requests and no other, waits five seconds between
    two chunks and not after the last, and returns the lists put end to
    end in that order; no other model is asked. *)
Theorem extract_entities_with_gemini_answered
  (json_loads : str -> outcome json) (env : Env) (answers : list (list json))
  (text api_key : str) (w : World) :
  available_models env api_key <> [] ->
  GenerativeModel env (hd [] (available_models env api_key)) = Return tt ->
  answered_in_turn json_loads env (hd [] (available_models env api_key))
    (pieces text) (calls w) answers ->
  List.concat answers <> [] ->
  fst (extract_entities_with_gemini json_loads env text api_key w)
  = Some (List.concat answers)
  /\ calls (snd (extract_entities_with_gemini json_loads env text api_key w))
     = calls w + List.length (pieces text)
  /\ slept (snd (extract_entities_with_gemini json_loads env text api_key w))
     = repeat 5%Z (List.length (pieces text) - 1) ++ slept w.
Proof.
  intros Hav Hmodel Ha Hne.
  destruct (@extract_entities_with_gemini_run json_loads env answers text api_key
              w Hav Hmodel Ha Hne) as [w' [E [C [S _]]]].
  rewrite E. cbn [fst snd]. repeat split; assumption.
Qed.

(** Four models of which only the first answers, with the two records
    of the prompt; the others have hit their quota. *)
Lemma extract_entities_with_gemini_answered_witness :
  answered_in_turn JsonText.loads env_two_records
    (hd [] (available_models env_two_records (lit "key")))
    (pieces (lit "Noticee Mr. Agarwal, PAN AAUFM6247N")) 0 [two_records]
  /\ fst (extract_entities_with_gemini JsonText.loads env_two_records
            (lit "Noticee Mr. Agarwal, PAN AAUFM6247N") (lit "key") world0)
     = Some two_records
  /\ calls (snd (extract_entities_with_gemini JsonText.loads env_two_records
                   (lit "Noticee Mr. Agarwal, PAN AAUFM6247N") (lit "key") world0))
     = 1.
Proof.
  assert (Ha : answered_in_turn JsonText.loads env_two_records
                 (hd [] (available_models env_two_records (lit "key")))
                 (pieces (lit "Noticee Mr. Agarwal, PAN AAUFM6247N")) 0
                 [two_records]).
  { split; [|exact I]. do 2 eexists. repeat split; reflexivity. }
  destruct (@extract_entities_with_gemini_answered JsonText.loads env_two_records
              [two_records] (lit "Noticee Mr. Agarwal, PAN AAUFM6247N") (lit "key")
              world0) as [H1 [H2 _]].
  - vm_compute. discriminate.
  - reflexivity.
  - exact Ha.
  - discriminate.
  - split; [exact Ha|]. split; [exact H1 | exact H2].
Defined.

End OrchestratorMoreClaims.

(** ** The script *)

Section MainMore.

Import Csv.

(** Reading the PDF raises nothing, makes no request and writes no
    file. *)
Lemma extract_text_from_pdf_frame (env : Env) (pdf_path : str) (w : World) :
  exists r w',
    Pdf.extract_text_from_pdf env pdf_path w = (Return r, w')
    /\ calls w' = calls w /\ csv_files w' = csv_files w.
Proof.
  unfold Pdf.extract_text_from_pdf.
  destruct (pdf_files env pdf_path) as [reader|];
    [|do 2 eexists; split; [reflexivity | split; reflexivity]].
  unfold bind. cbn [fst snd].
  destruct reader as [pages|e];
    [|do 2 eexists; split; [reflexivity | split; reflexivity]].
  destruct (Pdf.text_parts pages) as [[|p ps]|e];
    do 2 eexists; (split; [reflexivity | split; reflexivity]).
Qed.

(** The text of a file that can be read and has pages of text. *)
Lemma extract_text_from_pdf_run (env : Env) (pdf_path : str) (texts : list str)
  (w : World) :
  pdf_files env pdf_path = Some (Return (map Return texts)) ->
  filter nonempty texts <> [] ->
  nonempty (join [LF] (filter nonempty texts)) = true
  /\ exists w',
       Pdf.extract_text_from_pdf env pdf_path w
       = (Return (Some (join [LF] (filter nonempty texts))), w')
       /\ calls w' = calls w /\ csv_files w' = csv_files w.
Proof.
  intros Hf Hne. split.
  - assert (N : join [LF] (filter nonempty texts) <> []).
    { apply join_nonempty; [exact Hne|]. apply Forall_forall.
      intros t Ht. apply filter_In in Ht. destruct Ht as [_ Ht].
      destruct t; [discriminate Ht | discriminate]. }
    destruct (join [LF] (filter nonempty texts)); [congruence | reflexivity].
  - unfold Pdf.extract_text_from_pdf. rewrite Hf.
    unfold bind. cbn [fst snd]. rewrite text_parts_texts.
    destruct (filter nonempty texts) as [|p ps]; [congruence|].
    eexists. split; [reflexivity | split; reflexivity].
Qed.

(** The extraction writes no file. *)
Lemma extract_entities_with_gemini_files
  (json_loads : str -> outcome json) (env : Env) (text api_key : str) (w : World) :
  csv_files (snd (Orchestrator.extract_entities_with_gemini json_loads env text
                    api_key w)) = csv_files w.
Proof.
  destruct (extract_entities_with_gemini_loop json_loads env text api_key w)
    as [w0 [_ [_ [F E]]]].
  rewrite E.
  destruct (available_models env api_key) as [|m rest]; [exact F|].
  destruct (@models_loop_cases json_loads env text (m :: rest) 0
              (Z.of_nat (List.length (m :: rest))) w0 ltac:(lia))
    as [_ [Hf _]].
  congruence.
Qed.

(** What [write_to_csv] does to the files. *)
Lemma write_to_csv_files (env : Env) (data : list json) (csv_path : str)
  (w : World) :
  calls (snd (write_to_csv env data csv_path w)) = calls w
  /\ (csv_files (snd (write_to_csv env data csv_path w)) = csv_files w
      \/ exists rows,
           csv_files (snd (write_to_csv env data csv_path w))
           = (csv_path, header :: rows) :: csv_files w).
Proof.
  unfold write_to_csv. destruct (nonnil data); cbn [negb];
    [|split; [reflexivity | now left]].
  unfold bind. cbn [fst snd].
  destruct (open_csv env csv_path); [|split; [reflexivity | now left]].
  destruct (rows_of data) as [rows err]. cbn [fst snd].
  split; [destruct err; reflexivity|].
  right. exists rows. destruct err; reflexivity.
Qed.

(** X16. Whatever the key, the PDF, the catalog, the models and their
    answers, [main] leaves the files as they are or writes one file, at
    [result.csv], whose first row is the header. *)
Theorem main_one_file (json_loads : str -> outcome json) (env : Env) (w : World) :
  csv_files (snd (main json_loads env w)) = csv_files w
  \/ exists rows,
       csv_files (snd (main json_loads env w))
       = (OUTPUT_CSV_PATH, header :: rows) :: csv_files w.
Proof.
  unfold main, bind. cbn [fst snd].
  destruct (getenv_api_key env) as [api_key|]; [|now left].
  destruct (nonempty api_key); cbn [negb]; [|now left].
  match goal with |- context [Pdf.extract_text_from_pdf env ?p ?w1] =>
    destruct (extract_text_from_pdf_frame env p w1) as [r [w2 [E [_ F2]]]];
    assert (F1 : csv_files w1 = csv_files w) by reflexivity;
    rewrite E
  end.
  cbn [fst snd].
  destruct r as [pdf_text|]; [|left; cbn; congruence].
  destruct (nonempty pdf_text); cbn [negb]; [|left; cbn; congruence].
  match goal with
  | |- context [Orchestrator.extract_entities_with_gemini _ _ ?t ?k ?w3] =>
    pose proof (extract_entities_with_gemini_files json_loads env t k w3) as F3;
    destruct (Orchestrator.extract_entities_with_gemini json_loads env t k w3)
      as [extracted_data w4]
  end.
  cbn [fst snd] in *.
  destruct extracted_data as [data|]; [|left; cbn; congruence].
  match goal with |- context [write_to_csv env data ?p ?w5] =>
    destruct (write_to_csv_files env data p w5) as [_ [F5|[rows F5]]];
    assert (F4 : csv_files w5 = csv_files w4)
      by (destruct (nonnil data); reflexivity);
    destruct (write_to_csv env data p w5) as [u w6]
  end;
    cbn [fst snd csv_files] in *.
  - left. cbn [snd csv_files print ret]. congruence.
  - right. exists rows. cbn [snd csv_files print ret]. congruence.
Qed.

(** X17. Without a key, or without text in the PDF (no file, a file
    that cannot be read, pages without text), [main] returns without a
    request to the service and without a file. *)
Theorem main_idle (json_loads : str -> outcome json) (env : Env) (w : World) :
  getenv_api_key env = None
  \/ getenv_api_key env = Some []
  \/ (forall w', fst (Pdf.extract_text_from_pdf env PDF_FILE_PATH w') = Return None) ->
  fst (main json_loads env w) = Return tt
  /\ calls (snd (main json_loads env w)) = calls w
  /\ csv_files (snd (main json_loads env w)) = csv_files w.
Proof.
  intros H. unfold main, bind. cbn [fst snd].
  destruct (getenv_api_key env) as [api_key|]; [|repeat split].
  destruct (nonempty api_key) eqn:K; cbn [negb]; [|repeat split].
  destruct H as [H|[H|H]]; [discriminate| |].
  - injection H as ->. discriminate K.
  - match goal with |- context [Pdf.extract_text_from_pdf env ?p ?w1] =>
      specialize (H w1);
      destruct (extract_text_from_pdf_frame env p w1) as [r [w2 [E [C2 F2]]]];
      rewrite E in *
    end.
    cbn [fst snd] in *. injection H as ->.
    cbn [fst snd calls csv_files print ret]. rewrite C2, F2. repeat split.
Qed.

(** No PDF file. *)
Lemma main_idle_witness :
  (getenv_api_key (Runs.env_raising "429") = None
   \/ getenv_api_key (Runs.env_raising "429") = Some []
   \/ (forall w', fst (Pdf.extract_text_from_pdf (Runs.env_raising "429")
                         PDF_FILE_PATH w') = Return None))
  /\ calls (snd (main JsonText.loads (Runs.env_raising "429") world0)) = 0.
Proof.
  assert (H : getenv_api_key (Runs.env_raising "429") = None
              \/ getenv_api_key (Runs.env_raising "429") = Some []
              \/ (forall w', fst (Pdf.extract_text_from_pdf (Runs.env_raising "429")
                                    PDF_FILE_PATH w') = Return None))
    by (right; right; intros w'; reflexivity).
  split; [exact H|].
  exact (proj1 (proj2 (@main_idle JsonText.loads (Runs.env_raising "429") world0 H))).
Defined.

(** X18. From the PDF to the file: with a key, pages of text, a first
    model that can be built, the requests the run makes to it each
    answered by a completion that decodes to a list, the records being
    objects, at least one, and a file that can be opened, [main] writes
    to [result.csv] the header and one row for each record, in the order
    of the chunks, after one request for each text sent. *)
Theorem main_end_to_end (json_loads : str -> outcome json) (env : Env)
  (answers : list (list json)) (texts : list str)
  (dicts : list (list (str * json))) (api_key : str) (w : World) :
  getenv_api_key env = Some api_key ->
  api_key <> [] ->
  pdf_files env PDF_FILE_PATH = Some (Return (map Return texts)) ->
  filter nonempty texts <> [] ->
  available_models env api_key <> [] ->
  GenerativeModel env (hd [] (available_models env api_key)) = Return tt ->
  answered_in_turn json_loads env (hd [] (available_models env api_key))
    (pieces (join [LF] (filter nonempty texts))) (calls w) answers ->
  List.concat answers = map JDict dicts ->
  dicts <> [] ->
  open_csv env OUTPUT_CSV_PATH = Return tt ->
  fst (main json_loads env w) = Return tt
  /\ csv_files (snd (main json_loads env w))
     = (OUTPUT_CSV_PATH, header :: map csv_row dicts) :: csv_files w
  /\ calls (snd (main json_loads env w))
     = calls w + List.length (pieces (join [LF] (filter nonempty texts))).
Proof.
  intros Hkey Hk Hpdf Hne Hav Hmodel Ha Hd Hdne Hopen.
  unfold main, bind. cbn [fst snd]. rewrite Hkey.
  destruct api_key as [|c k]; [congruence|]. cbn [nonempty negb].
  match goal with |- context [Pdf.extract_text_from_pdf env ?p ?w1] =>
    destruct (@extract_text_from_pdf_run env p texts w1 Hpdf Hne)
      as [N [w2 [E [C2 F2]]]];
    assert (C1 : calls w1 = calls w) by reflexivity;
    assert (F1 : csv_files w1 = csv_files w) by reflexivity;
    rewrite E
  end.
  cbn [fst snd]. rewrite N. cbn [negb].
  assert (Hrne : List.concat answers <> [])
    by (rewrite Hd; destruct dicts; [congruence | discriminate]).
  assert (Ha2 : answered_in_turn json_loads env
                  (hd [] (available_models env (c :: k)))
                  (pieces (join [LF] (filter nonempty texts))) (calls w2) answers)
    by (rewrite C2, C1; exact Ha).
  destruct (@extract_entities_with_gemini_run json_loads env answers
              (join [LF] (filter nonempty texts)) (c :: k) w2 Hav Hmodel Ha2 Hrne)
    as [w4 [E4 [C4 [_ F4]]]].
  rewrite E4, Hd. cbn [fst snd].
  destruct dicts as [|d ds]; [congruence|].
  cbn [map nonnil negb when ret fst snd].
  unfold write_to_csv. cbn [nonnil negb]. unfold bind. cbn [fst snd].
  rewrite Hopen.
  change (JDict d :: map JDict ds) with (map JDict (d :: ds)).
  rewrite rows_of_dicts. cbn [fst snd calls csv_files print write_file ret map].
  split; [reflexivity|]. split; congruence.
Qed.

(** One page of text and the two records of the prompt, from the first
    model; the other models have hit their quota. *)
Lemma main_end_to_end_witness :
  answered_in_turn JsonText.loads env_two_records
    (hd [] (available_models env_two_records (lit "key")))
    (pieces (join [LF] (filter nonempty [lit "Noticee Mr. Agarwal, PAN AAUFM6247N"])))
    0 [two_records]
  /\ csv_files (snd (main JsonText.loads env_two_records world0))
     = [ (lit "result.csv",
          [ header;
            [JStr (lit "AAUFM6247N"); JStr (lit "PAN_Of"); JStr (lit "Mr. Agarwal")];
            [JStr (lit "AAACM9185B"); JStr (lit "PAN_Of");
             JStr (lit "MFS PVT. LTD.")] ]) ]
  /\ calls (snd (main JsonText.loads env_two_records world0)) = 1.
Proof.
  assert (Ha : answered_in_turn JsonText.loads env_two_records
                 (hd [] (available_models env_two_records (lit "key")))
                 (pieces (join [LF] (filter nonempty
                            [lit "Noticee Mr. Agarwal, PAN AAUFM6247N"])))
                 0 [two_records]).
  { split; [|exact I]. do 2 eexists. repeat split; reflexivity. }
  split; [exact Ha|].
  refine (proj2 (@main_end_to_end JsonText.loads env_two_records [two_records]
                   [lit "Noticee Mr. Agarwal, PAN AAUFM6247N"]
                   [ [ (lit "pan", JStr (lit "AAUFM6247N"));
                       (lit "relation", JStr (lit "PAN_Of"));
                       (lit "entity", JStr (lit "Mr. Agarwal")) ];
                     [ (lit "pan", JStr (lit "AAACM9185B"));
                       (lit "relation", JStr (lit "PAN_Of"));
                       (lit "entity", JStr (lit "MFS PVT. LTD.")) ] ]
                   (lit "key") world0 eq_refl _ eq_refl _ _ eq_refl Ha eq_refl _
                   eq_refl)).
  - discriminate.
  - discriminate.
  - vm_compute. discriminate.
  - discriminate.
Defined.

End MainMore.

(** ** ModelSelector: the entries of the preference list *)

Section ModelsMore.

Import Models.

Lemma startswith_of_longer (p r s : str) :
  startswith (p ++ r) s = true -> startswith p s = true.
Proof.
  revert s; induction p as [|a p IH]; intros s H; [reflexivity|].
  destruct s as [|b s]; [discriminate|].
  cbn [app startswith] in *. apply andb_true_iff in H. destruct H as [H1 H2].
  rewrite H1. now apply IH.
Qed.

(** A name that holds a text holds the beginning of the text. *)
Lemma contains_of_longer (p r s : str) :
  contains (p ++ r) s = true -> contains p s = true.
Proof.
  induction s as [|b s IH]; intros H.
  - cbn [contains] in *. rewrite orb_false_r in *. now apply startswith_of_longer with r.
  - cbn [contains] in *. apply orb_true_iff in H. apply orb_true_iff.
    destruct H as [H|H]; [left; now apply startswith_of_longer with r | right; now apply IH].
Qed.

(** An entry adds nothing when the names it occurs in are there. *)
Lemma add_matching_covered (preferred : str) (available sorted : list str) :
  (forall a, In a available -> contains preferred a = true -> In a sorted) ->
  add_matching preferred available sorted = sorted.
Proof.
  induction available as [|a rest IH]; intros H; [reflexivity|].
  cbn [add_matching].
  destruct (contains preferred a) eqn:C; cbn [andb].
  - assert (I : in_list a sorted = true)
      by (apply in_list_In; apply H; [now left | exact C]).
    rewrite I. cbn [negb]. apply IH. intros b Hb. apply H. now right.
  - apply IH. intros b Hb. apply H. now right.
Qed.

(** An entry adds the names it occurs in and keeps the others. *)
Lemma add_matching_In (preferred : str) (available sorted : list str) (x : str) :
  In x (add_matching preferred available sorted)
  <-> In x sorted \/ (In x available /\ contains preferred x = true).
Proof.
  rewrite add_matching_filter, add_remaining_In, filter_In. tauto.
Qed.

(** X19. The two [-lite] entries of the preference list decide
    nothing: for every catalog the selection is the one that the list
    without them gives.  A name that holds [gemini-2.0-flash-lite] or
    [gemini-2.5-flash-lite] holds [gemini-2.0-flash] or
    [gemini-2.5-flash] and is placed by that earlier entry. *)
Theorem sort_models_lite_entries (catalog : list Model) :
  sort_models catalog
  = add_remaining (available_of catalog)
      (add_preferred preferred_without_lite (available_of catalog) []).
Proof.
  unfold sort_models. cbv zeta. f_equal.
  change preferred_without_lite with
    [ lit "gemini-2.0-flash"; lit "gemini-2.5-flash"; lit "gemini-flash-latest";
      lit "gemini-2.5-pro"; lit "gemini-pro-latest" ].
  unfold preferred_order. cbn [add_preferred].
  set (av := available_of catalog).
  set (s1 := add_matching (lit "gemini-2.0-flash") av []).
  set (s2 := add_matching (lit "gemini-2.5-flash") av s1).
  set (s3 := add_matching (lit "gemini-flash-latest") av s2).
  assert (E4 : add_matching (lit "gemini-2.0-flash-lite") av s3 = s3).
  { apply add_matching_covered. intros a Ha Hc.
    apply add_matching_In. left. apply add_matching_In. left.
    apply add_matching_In. right. split; [exact Ha|].
    apply contains_of_longer with (lit "-lite"). exact Hc. }
  rewrite E4.
  assert (E5 : add_matching (lit "gemini-2.5-flash-lite") av s3 = s3).
  { apply add_matching_covered. intros a Ha Hc.
    apply add_matching_In. left. apply add_matching_In. right.
    split; [exact Ha|].
    apply contains_of_longer with (lit "-lite"). exact Hc. }
  rewrite E5. reflexivity.
Qed.

End ModelsMore.
